(** * gopcan: the channel facade of the PCAN-Basic binding

    A shallow embedding of [pcan/pcanbasic.go] (the channel methods [Read],
    [ReadWithTimeout], [ReadFullBuffer], [StartTrace], the library life
    cycle [LoadAPI]/[UnloadAPI] and the pass-through calls) and of the
    value types of [pcan/types.go].

    The native driver and the operating system are an environment the Go
    code talks to.  They are kept abstract ([Env]): the Go functions are
    written in a small state monad over a [World] that holds the state of
    that environment, the package-level variables of the Go package and
    the log of calls that crossed the boundary.  A call through a nil
    [*syscall.Proc] is a run-time panic in Go and is an outcome of its own
    here; unbounded [for] loops take fuel. *)

From Stdlib Require Import String ZArith Bool Lia List.
Import ListNotations.
Open Scope string_scope.
Open Scope list_scope.
Open Scope Z_scope.

(** ** Value types ([pcan/types.go]) *)

Definition TPCANHandle := Z.
Definition TPCANStatus := Z.
Definition TPCANParameter := Z.
Definition TPCANParameterValue := Z.

Record TPCANMsg := mkMsg {
  ID : Z;            (* 11/29-bit message identifier *)
  MsgType : Z;       (* type of the message *)
  DLC : Z;           (* data length code, uint8 *)
  Data : list Z      (* [LENGTH_DATA_CAN_MESSAGE]byte *)
}.

Record TPCANTimestamp := mkTimestamp {
  Millis : Z;          (* uint32 *)
  MillisOverflow : Z;  (* uint16 *)
  Micros : Z           (* uint16 *)
}.

Record TPCANBus := mkBus {
  Handle : TPCANHandle;
  Baudrate : Z;
  HWType : Z;
  IOPort : Z;
  Interrupt : Z;
  recvEvent : Z      (* syscall.Handle *)
}.

(** Go's [error] values that this package produces; the interface value
    [nil] is [None] of [option error]. *)
Inductive error :=
| errors_New (text : string)            (* errors.New("...") *)
| fmt_Errorf (format : string) (arg : Z) (* fmt.Errorf("... %v", arg) *)
| Errno_text (errno : Z)                 (* errors.New(errno.Error()) *)
| Errno (errno : Z)                      (* a syscall.Errno as an error *)
| EINVAL.                                (* syscall.EINVAL *)

(** ** Constants *)

(** The constants of the package and the declarations of its named
    integer types live in a file that is not part of the sources at hand;
    the functions are embedded over any choice of them. *)
Class Consts := {
  as_TPCANStatus : Z -> TPCANStatus;   (* the conversion TPCANStatus(r) of a uintptr *)
  PCAN_ERROR_OK : TPCANStatus;
  PCAN_ERROR_QRCVEMPTY : TPCANStatus;
  PCAN_ERROR_UNKNOWN : TPCANStatus;
  MAX_LENGHT_STRING_BUFFER : Z;
  MAX_TRACE_FILE_SIZE_ACCEPTED : Z;
  TRACE_FILE_SINGLE : Z;
  TRACE_FILE_SEGMENTED : Z;
  TRACE_FILE_DATE : Z;
  TRACE_FILE_TIME : Z;
  TRACE_FILE_OVERWRITE : Z;
  PCAN_TRACE_LOCATION : TPCANParameter;
  PCAN_TRACE_STATUS : TPCANParameter;
  PCAN_TRACE_SIZE : TPCANParameter;
  PCAN_TRACE_CONFIGURE : TPCANParameter;
  PCAN_PARAMETER_OFF : TPCANParameterValue;
  PCAN_PARAMETER_ON : TPCANParameterValue;
  sizeof_TPCANParameterValue : nat     (* unsafe.Sizeof of the value type *)
}.

(** Constants of Go's [syscall] and [time] packages (windows). *)
Definition INFINITE : Z := 4294967295.
Definition WAIT_OBJECT_0 : Z := 0.
Definition WAIT_TIMEOUT : Z := 258.
Definition WAIT_FAILED : Z := 4294967295.
Definition ERROR_INSUFFICIENT_BUFFER : Z := 122.
Definition Millisecond : Z := 1000000.
Definition Microsecond : Z := 1000.

(** Integer conversions of Go, written out. *)
Definition uint32 (z : Z) : Z := z mod 2 ^ 32.
Definition int64 (z : Z) : Z := (z + 2 ^ 63) mod 2 ^ 64 - 2 ^ 63.
Definition byte (z : Z) : Z := z mod 2 ^ 8.

(** ** The environment: native driver and operating system *)

(** A resolved entry point, [*syscall.Proc], and the module, [*syscall.DLL]. *)
Inductive Proc := mkProc (name : string).
Inductive DLL := mkDLL (name : string).

(** What crosses the boundary of the Go code. *)
Inductive Event :=
| EvUninitialize (h : TPCANHandle)
| EvReset (h : TPCANHandle)
| EvGetStatus (h : TPCANHandle)
| EvRead (h : TPCANHandle)
| EvWrite (h : TPCANHandle) (msg : TPCANMsg)
| EvGetValue (h : TPCANHandle) (param : TPCANParameter) (size : Z)
| EvSetValue (h : TPCANHandle) (param : TPCANParameter) (buffer : list Z) (size : Z)
| EvNow
| EvSleep (ns : Z)
| EvWait (h : Z) (ms : Z)
| EvLoadDLL (name : string)
| EvRelease.

(** The calls that enter the native driver. *)
Definition is_native (e : Event) : bool :=
  match e with
  | EvUninitialize _ | EvReset _ | EvGetStatus _
  | EvRead _ | EvWrite _ _ | EvGetValue _ _ _ | EvSetValue _ _ _ _ => true
  | _ => false
  end.

(** The driver returns a [uintptr] and the last-error value that
    [Proc.Call] hands back as an [error]; output buffers are returned as
    their content after the call. *)
Class Env := {
  dstate : Type;
  GOOS : string;
  os_LoadDLL : string -> dstate -> (option DLL * option error) * dstate;
  os_FindProc : DLL -> string -> option Proc;
  os_Release : DLL -> dstate -> option error * dstate;
  os_Now : dstate -> Z * dstate;                 (* time.Now().UnixNano() *)
  os_Sleep : Z -> dstate -> dstate;
  os_WaitForSingleObject : Z -> Z -> dstate -> (Z * Z) * dstate;
  CAN_Uninitialize : TPCANHandle -> dstate -> (Z * option Z) * dstate;
  CAN_Reset : TPCANHandle -> dstate -> (Z * option Z) * dstate;
  CAN_GetStatus : TPCANHandle -> dstate -> (Z * option Z) * dstate;
  CAN_Read : TPCANHandle -> dstate ->
             (Z * TPCANMsg * TPCANTimestamp * option Z) * dstate;
  CAN_Write : TPCANHandle -> TPCANMsg -> dstate -> (Z * option Z) * dstate;
  CAN_GetValue : TPCANHandle -> TPCANParameter -> Z -> dstate ->
                 (Z * list Z * option Z) * dstate;
  CAN_SetValue : TPCANHandle -> TPCANParameter -> list Z -> Z -> dstate ->
                 (Z * option Z) * dstate
}.

(** ** Package-level variables ([var ( ... )] of pcanbasic.go) *)

Record Globals := mkGlobals {
  pcanAPIHandle : option DLL;
  pHandleInitialize : option Proc;
  pHandleInitializeFD : option Proc;
  pHandleUninitialize : option Proc;
  pHandleReset : option Proc;
  pHandleGetStatus : option Proc;
  pHandleRead : option Proc;
  pHandleReadFD : option Proc;
  pHandleWrite : option Proc;
  pHandleWriteFD : option Proc;
  pHandleFilterMessages : option Proc;
  pHandleGetValue : option Proc;
  pHandleSetValue : option Proc;
  pHandleGetErrorText : option Proc;
  pHandleLookUpChannel : option Proc;
  apiLoaded : bool;
  hasEvents : bool
}.

(** The initial values of the declarations. *)
Definition initial_globals : Globals :=
  mkGlobals None None None None None None None None None None None None None
            None None false false.

(** ** Worlds, outcomes and the monad of the embedding *)

Record World {E : Env} := mkWorld {
  drv : dstate;          (* state of the driver and the operating system *)
  glob : Globals;        (* the package-level variables *)
  calls : list Event     (* what crossed the boundary so far, oldest first *)
}.

Arguments mkWorld {E} drv glob calls.

Inductive Outcome {E : Env} (A : Type) :=
| Returns (a : A) (w : World)
| Panics (w : World)     (* run-time panic: nil pointer dereference *)
| OutOfFuel.             (* the loop bound of the model is used up *)

Arguments Returns {E A} a w.
Arguments Panics {E A} w.
Arguments OutOfFuel {E A}.

Definition M {E : Env} (A : Type) := World -> Outcome A.

Definition ret {E : Env} {A} (a : A) : M A := fun w => Returns a w.

Definition bind {E : Env} {A B} (m : M A) (k : A -> M B) : M B :=
  fun w => match m w with
           | Returns a w' => k a w'
           | Panics w' => Panics w'
           | OutOfFuel => OutOfFuel
           end.

Definition panic {E : Env} {A} : M A := fun w => Panics w.

Definition get_globals {E : Env} : M Globals := fun w => Returns (glob w) w.

Definition set_globals {E : Env} (g : Globals) : M unit :=
  fun w => Returns tt (mkWorld (drv w) g (calls w)).

(** One interaction with the environment, logged. *)
Definition interact {E : Env} {R} (ev : Event) (f : dstate -> R * dstate) : M R :=
  fun w => let (r, d) := f (drv w) in
           Returns r (mkWorld d (glob w) (calls w ++ [ev])).

(** [Proc.Call]: the receiver is dereferenced for its address, so a nil
    entry point panics before anything is called. *)
Definition Call {E : Env} {R} (p : option Proc) (ev : Event)
           (f : dstate -> R * dstate) : M R :=
  match p with
  | None => panic
  | Some _ => interact ev f
  end.

Declare Scope go_scope.
Delimit Scope go_scope with go.
Notation "x <- m ;; k" := (bind m (fun x => k))
  (at level 61, m at next level, right associativity) : go_scope.
Notation "' pat <- m ;; k" := (bind m (fun x => match x with pat => k end))
  (at level 61, pat pattern, m at next level, right associativity) : go_scope.
Notation "m ;;; k" := (bind m (fun _ => k))
  (at level 61, right associativity) : go_scope.
Open Scope go_scope.

(** ** Strings and buffers *)

(** A Go string is its bytes.  [for i := range s] visits the byte index
    at which each rune starts; the width of the rune at the head of [s] is
    what the run-time's rune decoder consumes: one byte for ASCII and for
    anything that is not a well-formed sequence. *)
Definition is_cont (b : Z) : bool := (128 <=? b) && (b <=? 191).

Definition rune_width (s : list Z) : nat :=
  match s with
  | b0 :: b1 :: rest =>
      if (192 <=? b0) && (b0 <? 224) then
        if is_cont b1 && (127 <? Z.lor (Z.shiftl (Z.land b0 31) 6) (Z.land b1 63))
        then 2%nat else 1%nat
      else match rest with
      | b2 :: rest' =>
          if (224 <=? b0) && (b0 <? 240) then
            let r := Z.lor (Z.lor (Z.shiftl (Z.land b0 15) 12)
                                  (Z.shiftl (Z.land b1 63) 6)) (Z.land b2 63) in
            if is_cont b1 && is_cont b2 && (2047 <? r)
               && negb ((55296 <=? r) && (r <=? 57343))
            then 3%nat else 1%nat
          else match rest' with
          | b3 :: _ =>
              if (240 <=? b0) && (b0 <? 248) then
                let r := Z.lor (Z.lor (Z.lor (Z.shiftl (Z.land b0 7) 18)
                                             (Z.shiftl (Z.land b1 63) 12))
                                      (Z.shiftl (Z.land b2 63) 6)) (Z.land b3 63) in
                if is_cont b1 && is_cont b2 && is_cont b3
                   && (65535 <? r) && (r <=? 1114111)
                then 4%nat else 1%nat
              else 1%nat
          | [] => 1%nat
          end
      | [] => 1%nat
      end
  | _ => 1%nat
  end.

Fixpoint range_string (fuel : nat) (k : nat) (s : list Z) : list nat :=
  match fuel, s with
  | S fuel', _ :: _ =>
      let w := rune_width s in
      k :: range_string fuel' (k + w)%nat (skipn w s)
  | _, _ => []
  end.

(** [buffer[i] = v] on an array; the index is in range wherever the
    embedding uses it. *)
Definition store (i : nat) (v : Z) (buffer : list Z) : list Z :=
  match skipn i buffer with
  | [] => buffer
  | _ :: tl => firstn i buffer ++ v :: tl
  end.

(** The fixed buffer [StartTrace] hands to the driver:
    [var buffer [MAX_LENGHT_STRING_BUFFER]byte] and the loop over the path. *)
Definition path_buffer {C : Consts} (filePath : list Z) : list Z :=
  fold_left (fun buffer i => store i (byte (nth i filePath 0)) buffer)
            (range_string (List.length filePath) 0 filePath)
            (repeat 0 (Z.to_nat MAX_LENGHT_STRING_BUFFER)).

(** Little-endian image of an unsigned value in [n] bytes, and back. *)
Fixpoint le_bytes (n : nat) (v : Z) : list Z :=
  match n with
  | O => []
  | S n' => v mod 256 :: le_bytes n' (v / 256)
  end.

Fixpoint le_value (bs : list Z) : Z :=
  match bs with
  | [] => 0
  | b :: bs' => b + 256 * le_value bs'
  end.

Definition isNil {A} (o : option A) : bool :=
  match o with None => true | Some _ => false end.

Definition len {A} (l : list A) : Z := Z.of_nat (List.length l).

(** ** The functions of pcanbasic.go *)

Section Facade.

Context {C : Consts} {E : Env}.

Definition Result : Type :=
  TPCANStatus * option TPCANMsg * option TPCANTimestamp * option error.

(** [syscallErr]: the last-error value of a call becomes an error unless
    it is zero or the insufficient-buffer warning, which is only printed. *)
Definition syscallErr (err : option Z) : option error :=
  match err with
  | Some errno =>
      if negb (errno =? 0) then
        if errno =? ERROR_INSUFFICIENT_BUFFER then None
        else Some (Errno_text errno)
      else None
  | None => None
  end.

Definition LoadAPI : M (option error) :=
  g <- get_globals ;;
  if apiLoaded g then ret None
  else if negb (String.eqb GOOS "windows") then
    ret (Some (errors_New
      (String.append "invalid operating system. change compile option to match "
                     GOOS)))
  else
    ' (h, err) <- interact (EvLoadDLL "PCANBasic.dll") (os_LoadDLL "PCANBasic.dll") ;;
    match err, h with
    | None, Some d =>
        let find := os_FindProc d in
        let g1 := mkGlobals h
                    (find "CAN_Initialize") (find "CAN_InitializeFD")
                    (find "CAN_Uninitialize") (find "CAN_Reset")
                    (find "CAN_GetStatus") (find "CAN_Read")
                    (find "CAN_ReadFD") (find "CAN_Write")
                    (find "CAN_WriteFD") (find "CAN_FilterMessages")
                    (find "CAN_GetValue") (find "CAN_SetValue")
                    (find "CAN_GetErrorText") (find "CAN_LookUpChannel")
                    false (hasEvents g) in
        let loaded :=
          negb (isNil (pHandleInitialize g1)) && negb (isNil (pHandleInitializeFD g1))
          && negb (isNil (pHandleReset g1)) && negb (isNil (pHandleGetStatus g1))
          && negb (isNil (pHandleRead g1)) && negb (isNil (pHandleReadFD g1))
          && negb (isNil (pHandleWrite g1)) && negb (isNil (pHandleWriteFD g1))
          && negb (isNil (pHandleFilterMessages g1)) && negb (isNil (pHandleGetValue g1))
          && negb (isNil (pHandleSetValue g1)) && negb (isNil (pHandleGetErrorText g1))
          && negb (isNil (pHandleLookUpChannel g1)) && negb (isNil (pHandleUninitialize g1)) in
        set_globals
          (mkGlobals h
             (pHandleInitialize g1) (pHandleInitializeFD g1) (pHandleUninitialize g1)
             (pHandleReset g1) (pHandleGetStatus g1) (pHandleRead g1)
             (pHandleReadFD g1) (pHandleWrite g1) (pHandleWriteFD g1)
             (pHandleFilterMessages g1) (pHandleGetValue g1) (pHandleSetValue g1)
             (pHandleGetErrorText g1) (pHandleLookUpChannel g1)
             loaded (hasEvents g)) ;;;
        if negb loaded then
          ret (Some (errors_New "could not load pointers to pcan functions"))
        else ret None
    | _, _ =>
        set_globals
          (mkGlobals h
             (pHandleInitialize g) (pHandleInitializeFD g) (pHandleUninitialize g)
             (pHandleReset g) (pHandleGetStatus g) (pHandleRead g)
             (pHandleReadFD g) (pHandleWrite g) (pHandleWriteFD g)
             (pHandleFilterMessages g) (pHandleGetValue g) (pHandleSetValue g)
             (pHandleGetErrorText g) (pHandleLookUpChannel g)
             (apiLoaded g) (hasEvents g)) ;;;
        ret err
    end.

(** [UnloadAPI] clears every entry point and the flag, then releases the
    module; [Release] dereferences the module handle. *)
Definition UnloadAPI : M (option error) :=
  g <- get_globals ;;
  set_globals
    (mkGlobals (pcanAPIHandle g) None None None None None None None None None
               None None None None None false (hasEvents g)) ;;;
  match pcanAPIHandle g with
  | None => panic
  | Some d => interact EvRelease (os_Release d)
  end.

Definition Uninitialize (p : TPCANBus) : M (TPCANStatus * option error) :=
  g <- get_globals ;;
  ' (r, errno) <- Call (pHandleUninitialize g) (EvUninitialize (Handle p))
                       (CAN_Uninitialize (Handle p)) ;;
  ret (as_TPCANStatus r, syscallErr errno).

Definition Reset (p : TPCANBus) : M (TPCANStatus * option error) :=
  g <- get_globals ;;
  ' (r, errno) <- Call (pHandleReset g) (EvReset (Handle p))
                       (CAN_Reset (Handle p)) ;;
  ret (as_TPCANStatus r, syscallErr errno).

Definition GetStatus (p : TPCANBus) : M (TPCANStatus * option error) :=
  g <- get_globals ;;
  ' (r, errno) <- Call (pHandleGetStatus g) (EvGetStatus (Handle p))
                       (CAN_GetStatus (Handle p)) ;;
  ret (as_TPCANStatus r, syscallErr errno).

(** [Read]: one call of the driver's read; the pointers are nil exactly
    when the status is queue-empty. *)
Definition Read (p : TPCANBus) : M Result :=
  g <- get_globals ;;
  ' (r, msg, timeStamp, errno) <- Call (pHandleRead g) (EvRead (Handle p))
                                      (CAN_Read (Handle p)) ;;
  if as_TPCANStatus r =? PCAN_ERROR_QRCVEMPTY then
    ret (as_TPCANStatus r, None, None, syscallErr errno)
  else
    ret (as_TPCANStatus r, Some msg, Some timeStamp, syscallErr errno).

(** The later layout of the package splits the call off into [APIRead]
    and lets [Read] look at its status. *)
Definition APIRead (handle : TPCANHandle)
  : M (TPCANStatus * TPCANMsg * TPCANTimestamp * option error) :=
  g <- get_globals ;;
  ' (r, msg, timestamp, errno) <- Call (pHandleRead g) (EvRead handle)
                                      (CAN_Read handle) ;;
  ret (as_TPCANStatus r, msg, timestamp, syscallErr errno).

Definition Read_via_API (p : TPCANBus) : M Result :=
  ' (status, msg, timestamp, err) <- APIRead (Handle p) ;;
  if status =? PCAN_ERROR_QRCVEMPTY then ret (status, None, None, err)
  else ret (status, Some msg, Some timestamp, err).

Definition Write (p : TPCANBus) (msg : TPCANMsg) : M (TPCANStatus * option error) :=
  g <- get_globals ;;
  ' (r, errno) <- Call (pHandleWrite g) (EvWrite (Handle p) msg)
                       (CAN_Write (Handle p) msg) ;;
  ret (as_TPCANStatus r, syscallErr errno).

(** [GetValue] fills the caller's buffer; its content after the call is
    the third component here. *)
Definition GetValue (p : TPCANBus) (param : TPCANParameter) (bufferSize : Z)
  : M (TPCANStatus * option error * list Z) :=
  g <- get_globals ;;
  ' (r, buffer, errno) <- Call (pHandleGetValue g)
                              (EvGetValue (Handle p) param bufferSize)
                              (CAN_GetValue (Handle p) param bufferSize) ;;
  ret (as_TPCANStatus r, syscallErr errno, buffer).

Definition SetValue (p : TPCANBus) (param : TPCANParameter) (buffer : list Z)
           (bufferSize : Z) : M (TPCANStatus * option error) :=
  g <- get_globals ;;
  ' (r, errno) <- Call (pHandleSetValue g)
                      (EvSetValue (Handle p) param buffer bufferSize)
                      (CAN_SetValue (Handle p) param buffer bufferSize) ;;
  ret (as_TPCANStatus r, syscallErr errno).

Definition GetParameter (p : TPCANBus) (param : TPCANParameter)
  : M (TPCANStatus * TPCANParameterValue * option error) :=
  ' (r, err, buffer) <- GetValue p param (uint32 (Z.of_nat sizeof_TPCANParameterValue)) ;;
  ret (r, le_value (firstn sizeof_TPCANParameterValue buffer), err).

Definition SetParameter (p : TPCANBus) (param : TPCANParameter)
           (val : TPCANParameterValue) : M (TPCANStatus * option error) :=
  SetValue p param (le_bytes sizeof_TPCANParameterValue val)
           (uint32 (Z.of_nat sizeof_TPCANParameterValue)).

(** The clock in milliseconds, as both places of [ReadWithTimeout] read it:
    [time.Now().UnixNano() / int64(time.Millisecond)]. *)
Definition now_ms : M Z :=
  ns <- interact EvNow os_Now ;;
  ret (Z.quot ns Millisecond).

Definition Sleep (ns : Z) : M unit :=
  interact (EvSleep ns) (fun d => (tt, os_Sleep ns d)).

(** [syscall.WaitForSingleObject]: the event is the low 32 bits of the
    result; an error is set exactly when that is [0xffffffff]. *)
Definition WaitForSingleObject (handle : Z) (waitMilliseconds : Z)
  : M (Z * option error) :=
  ' (r0, e1) <- interact (EvWait handle waitMilliseconds)
                        (os_WaitForSingleObject handle waitMilliseconds) ;;
  let event := uint32 r0 in
  if event =? 4294967295 then
    ret (event, Some (if e1 =? 0 then EINVAL else Errno e1))
  else ret (event, None).

(** The loop [for msg == nil { ... }] of [ReadWithTimeout], entered with
    the current values of [ret], [msg], [timeStamp] and [err]. *)
Fixpoint receive (fuel : nat) (p : TPCANBus) (timeoutU32 endTime : Z)
         (cur : Result) : M Result :=
  match cur with
  | (_, Some _, _, _) => ret cur
  | (_, None, _, _) =>
      match fuel with
      | O => fun _ => OutOfFuel
      | S fuel' =>
          ' (status, msg, timeStamp, err) <- Read p ;;
          if status =? PCAN_ERROR_QRCVEMPTY then
            g <- get_globals ;;
            if hasEvents g then
              ' (val, errWait) <- WaitForSingleObject (recvEvent p) timeoutU32 ;;
              if val =? WAIT_OBJECT_0 then
                receive fuel' p timeoutU32 endTime (status, msg, timeStamp, err)
              else if val =? WAIT_FAILED then ret (status, None, None, errWait)
              else if val =? WAIT_TIMEOUT then ret (status, None, None, errWait)
              else ret (status, msg, timeStamp, errWait)
            else
              now <- now_ms ;;
              if now >? endTime then ret (status, None, None, err)
              else
                Sleep (250 * Microsecond) ;;;
                receive fuel' p timeoutU32 endTime (status, msg, timeStamp, err)
          else receive fuel' p timeoutU32 endTime (status, msg, timeStamp, err)
      end
  end.

(** [ReadWithTimeout]; [timeout] is a Go [int] (64 bits: the assignment of
    [syscall.INFINITE] to it only compiles there). *)
Definition ReadWithTimeout (fuel : nat) (p : TPCANBus) (timeout : Z) : M Result :=
  let timeout := if timeout <? 0 then INFINITE else timeout in
  let timeoutU32 := uint32 timeout in
  startTime <- now_ms ;;
  let endTime := int64 (startTime + int64 timeout) in
  receive fuel p timeoutU32 endTime (PCAN_ERROR_UNKNOWN, None, None, None).

(** The loop [for { ... }] of [ReadFullBuffer]. *)
Fixpoint drain (fuel : nat) (p : TPCANBus) (limit : Z)
         (msgs : list TPCANMsg) (timestamps : list TPCANTimestamp)
  : M (list TPCANMsg * list TPCANTimestamp * option error) :=
  match fuel with
  | O => fun _ => OutOfFuel
  | S fuel' =>
      ' (status, msg, timeStamp, err) <- Read p ;;
      if status =? PCAN_ERROR_QRCVEMPTY then ret (msgs, timestamps, err)
      else
        match msg, timeStamp with
        | Some m, Some t =>
            let msgs := msgs ++ [m] in
            let timestamps := timestamps ++ [t] in
            if negb (limit =? 0) && (len msgs >=? limit)
            then ret (msgs, timestamps, err)
            else drain fuel' p limit msgs timestamps
        | _, _ => panic   (* unary * of a nil pointer *)
        end
  end.

Definition ReadFullBuffer (fuel : nat) (p : TPCANBus) (limit : Z)
  : M (list TPCANMsg * list TPCANTimestamp * option error) :=
  drain fuel p limit [] [].

(** [StartTrace]; [filePath] is the string as bytes, [maxFileSize] a
    [uint32]. *)
Definition StartTrace (p : TPCANBus) (filePath : list Z) (maxFileSize : Z)
  : M (TPCANStatus * option error) :=
  if maxFileSize >? MAX_TRACE_FILE_SIZE_ACCEPTED then
    ret (PCAN_ERROR_UNKNOWN,
         Some (fmt_Errorf "maximum size of a trace file is %v MB"
                          MAX_TRACE_FILE_SIZE_ACCEPTED))
  else
    let cfg := Z.lor (Z.lor TRACE_FILE_DATE TRACE_FILE_TIME) TRACE_FILE_OVERWRITE in
    let cfg := if maxFileSize >? 0 then Z.lor cfg TRACE_FILE_SEGMENTED
               else Z.lor cfg TRACE_FILE_SINGLE in
    ' (state, err) <- SetParameter p PCAN_TRACE_CONFIGURE cfg ;;
    if negb (isNil err) || negb (state =? PCAN_ERROR_OK) then ret (state, err)
    else
      failed <- (if maxFileSize >? 0 then
                   ' (state, err) <- SetValue p PCAN_TRACE_SIZE (le_bytes 4 maxFileSize) 4 ;;
                   if negb (isNil err) || negb (state =? PCAN_ERROR_OK)
                   then ret (Some (state, err)) else ret None
                 else ret None) ;;
      match failed with
      | Some r => ret r
      | None =>
          if len filePath >? MAX_LENGHT_STRING_BUFFER then
            ret (PCAN_ERROR_UNKNOWN,
                 Some (fmt_Errorf "filepath exceeds max length of %v"
                                  MAX_LENGHT_STRING_BUFFER))
          else
            ' (state, err) <- SetValue p PCAN_TRACE_LOCATION (path_buffer filePath)
                                      (uint32 MAX_LENGHT_STRING_BUFFER) ;;
            if negb (isNil err) || negb (state =? PCAN_ERROR_OK) then ret (state, err)
            else SetParameter p PCAN_TRACE_STATUS PCAN_PARAMETER_ON
      end.

Definition StopTrace (p : TPCANBus) : M (TPCANStatus * option error) :=
  SetParameter p PCAN_TRACE_STATUS PCAN_PARAMETER_OFF.

End Facade.

(** ** Vocabulary of the statements *)

Section Vocabulary.

Context {C : Consts} {E : Env}.

(** [w'] extends the log of [w] by [evs], the package variables untouched. *)
Definition extends (w w' : World) (evs : list Event) : Prop :=
  glob w' = glob w /\ calls w' = calls w ++ evs.

(** One fruitless turn of the wait: the read reports queue-empty and the
    turn goes on, because the event was signalled or because the clock has
    not passed the deadline and the caller slept. *)
Inductive waits_on (p : TPCANBus) (timeoutU32 endTime : Z) : World -> World -> Prop :=
| waits_signalled w e w1 errWait w2 :
    Read p w = Returns (PCAN_ERROR_QRCVEMPTY, None, None, e) w1 ->
    hasEvents (glob w1) = true ->
    WaitForSingleObject (recvEvent p) timeoutU32 w1 = Returns (WAIT_OBJECT_0, errWait) w2 ->
    waits_on p timeoutU32 endTime w w2
| waits_slept w e w1 now w2 w3 :
    Read p w = Returns (PCAN_ERROR_QRCVEMPTY, None, None, e) w1 ->
    hasEvents (glob w1) = false ->
    now_ms w1 = Returns now w2 ->
    now <= endTime ->
    Sleep (250 * Microsecond) w2 = Returns tt w3 ->
    waits_on p timeoutU32 endTime w w3.

(** [n] fruitless turns in a row. *)
Inductive fruitless (p : TPCANBus) (timeoutU32 endTime : Z) : nat -> World -> World -> Prop :=
| fruitless_O w : fruitless p timeoutU32 endTime 0 w w
| fruitless_S n w w1 w' :
    waits_on p timeoutU32 endTime w w1 ->
    fruitless p timeoutU32 endTime n w1 w' ->
    fruitless p timeoutU32 endTime (S n) w w'.

(** The turn in which the deadline passes: the read reports queue-empty
    and the wait times out, or the clock is past the deadline.  [err] is
    the error that turn is left with: the wait's, or the read's. *)
Inductive deadline_passes (p : TPCANBus) (timeoutU32 endTime : Z)
  : World -> option error -> World -> Prop :=
| deadline_wait w e w1 errWait w2 :
    Read p w = Returns (PCAN_ERROR_QRCVEMPTY, None, None, e) w1 ->
    hasEvents (glob w1) = true ->
    WaitForSingleObject (recvEvent p) timeoutU32 w1 = Returns (WAIT_TIMEOUT, errWait) w2 ->
    deadline_passes p timeoutU32 endTime w errWait w2
| deadline_clock w e w1 now w2 :
    Read p w = Returns (PCAN_ERROR_QRCVEMPTY, None, None, e) w1 ->
    hasEvents (glob w1) = false ->
    now_ms w1 = Returns now w2 ->
    now > endTime ->
    deadline_passes p timeoutU32 endTime w e w2.

(** The receive queue of the channel holds the frames [q], oldest first:
    successive reads hand them out in that order, and the read after the
    last one reports queue-empty. *)
Fixpoint queued (p : TPCANBus) (q : list (TPCANMsg * TPCANTimestamp)) (w : World) : Prop :=
  match q with
  | [] => exists e w', Read p w = Returns (PCAN_ERROR_QRCVEMPTY, None, None, e) w'
  | (m, t) :: q' =>
      exists st e w', Read p w = Returns (st, Some m, Some t, e) w' /\ queued p q' w'
  end.

(** The configuration value [StartTrace] computes from the file size, and
    the two set-up calls as they stand in the log. *)
Definition trace_cfg (maxFileSize : Z) : Z :=
  let cfg := Z.lor (Z.lor TRACE_FILE_DATE TRACE_FILE_TIME) TRACE_FILE_OVERWRITE in
  if maxFileSize >? 0 then Z.lor cfg TRACE_FILE_SEGMENTED
  else Z.lor cfg TRACE_FILE_SINGLE.

Definition configure_call (p : TPCANBus) (maxFileSize : Z) : Event :=
  EvSetValue (Handle p) PCAN_TRACE_CONFIGURE
             (le_bytes sizeof_TPCANParameterValue (trace_cfg maxFileSize))
             (uint32 (Z.of_nat sizeof_TPCANParameterValue)).

Definition size_call (p : TPCANBus) (maxFileSize : Z) : Event :=
  EvSetValue (Handle p) PCAN_TRACE_SIZE (le_bytes 4 maxFileSize) 4.

(** The two local errors of [StartTrace]. *)
Definition path_error : option error :=
  Some (fmt_Errorf "filepath exceeds max length of %v" MAX_LENGHT_STRING_BUFFER).

Definition size_error : option error :=
  Some (fmt_Errorf "maximum size of a trace file is %v MB"
                   MAX_TRACE_FILE_SIZE_ACCEPTED).

(** An answer that ends [StartTrace]: [err != nil || state != PCAN_ERROR_OK]. *)
Definition refused (state : TPCANStatus) (err : option error) : Prop :=
  err <> None \/ state <> PCAN_ERROR_OK.

(** The state [UnloadAPI] leaves the entry points in. *)
Definition unloaded (g : Globals) : Prop :=
  pHandleInitialize g = None /\ pHandleInitializeFD g = None /\
  pHandleUninitialize g = None /\ pHandleReset g = None /\
  pHandleGetStatus g = None /\ pHandleRead g = None /\
  pHandleReadFD g = None /\ pHandleWrite g = None /\
  pHandleWriteFD g = None /\ pHandleFilterMessages g = None /\
  pHandleGetValue g = None /\ pHandleSetValue g = None /\
  pHandleGetErrorText g = None /\ pHandleLookUpChannel g = None /\
  apiLoaded g = false.

End Vocabulary.

(** ** A scripted environment, for running the functions *)

(** The values the vendor's header gives the constants. *)
Definition vendor : Consts := {|
  as_TPCANStatus := uint32;
  PCAN_ERROR_OK := 0;
  PCAN_ERROR_QRCVEMPTY := 32;
  PCAN_ERROR_UNKNOWN := 65536;
  MAX_LENGHT_STRING_BUFFER := 256;
  MAX_TRACE_FILE_SIZE_ACCEPTED := 100;
  TRACE_FILE_SINGLE := 0;
  TRACE_FILE_SEGMENTED := 1;
  TRACE_FILE_DATE := 2;
  TRACE_FILE_TIME := 4;
  TRACE_FILE_OVERWRITE := 128;
  PCAN_TRACE_LOCATION := 19;
  PCAN_TRACE_STATUS := 20;
  PCAN_TRACE_SIZE := 21;
  PCAN_TRACE_CONFIGURE := 22;
  PCAN_PARAMETER_OFF := 0;
  PCAN_PARAMETER_ON := 1;
  sizeof_TPCANParameterValue := 4
|}.

Definition PCAN_ERROR_BUSOFF : TPCANStatus := 16.

(** The driver stub answers from scripts: each read takes the next
    scripted answer (status, frame, timestamp) and reports queue-empty
    when none is left; the clock takes the next scripted reading. *)
Record Script := mkScript {
  rx : list (Z * TPCANMsg * TPCANTimestamp);   (* answers of CAN_Read *)
  clock : list Z;                              (* readings of the clock, ns *)
  waits : list Z;                              (* results of the wait *)
  status : Z                                   (* answer of the other calls *)
}.

Definition zero_msg : TPCANMsg := mkMsg 0 0 0 (repeat 0 8).
Definition zero_timestamp : TPCANTimestamp := mkTimestamp 0 0 0.

Definition stub : Env := {|
  dstate := Script;
  GOOS := "windows";
  os_LoadDLL := fun name s => ((Some (mkDLL name), None), s);
  os_FindProc := fun _ name => Some (mkProc name);
  os_Release := fun _ s => (None, s);
  os_Now := fun s =>
    match clock s with
    | [] => (0, s)
    | t :: ts => (t, mkScript (rx s) ts (waits s) (status s))
    end;
  os_Sleep := fun _ s => s;
  os_WaitForSingleObject := fun _ _ s =>
    match waits s with
    | [] => ((WAIT_TIMEOUT, 0), s)
    | v :: vs => ((v, 0), mkScript (rx s) (clock s) vs (status s))
    end;
  CAN_Uninitialize := fun _ s => ((status s, Some 0), s);
  CAN_Reset := fun _ s => ((status s, Some 0), s);
  CAN_GetStatus := fun _ s => ((status s, Some 0), s);
  CAN_Read := fun _ s =>
    match rx s with
    | [] => ((32, zero_msg, zero_timestamp, Some 0), s)
    | (st, m, t) :: q => ((st, m, t, Some 0), mkScript q (clock s) (waits s) (status s))
    end;
  CAN_Write := fun _ _ s => ((status s, Some 0), s);
  CAN_GetValue := fun _ _ size s => ((status s, repeat 0 (Z.to_nat size), Some 0), s);
  CAN_SetValue := fun _ _ _ _ s => ((status s, Some 0), s)
|}.

(** The package after a successful [LoadAPI], and a channel. *)
Definition opened_globals : Globals :=
  let d := mkDLL "PCANBasic.dll" in
  mkGlobals (Some d)
    (Some (mkProc "CAN_Initialize")) (Some (mkProc "CAN_InitializeFD"))
    (Some (mkProc "CAN_Uninitialize")) (Some (mkProc "CAN_Reset"))
    (Some (mkProc "CAN_GetStatus")) (Some (mkProc "CAN_Read"))
    (Some (mkProc "CAN_ReadFD")) (Some (mkProc "CAN_Write"))
    (Some (mkProc "CAN_WriteFD")) (Some (mkProc "CAN_FilterMessages"))
    (Some (mkProc "CAN_GetValue")) (Some (mkProc "CAN_SetValue"))
    (Some (mkProc "CAN_GetErrorText")) (Some (mkProc "CAN_LookUpChannel"))
    true false.

Definition with_events (g : Globals) : Globals :=
  mkGlobals (pcanAPIHandle g)
    (pHandleInitialize g) (pHandleInitializeFD g) (pHandleUninitialize g)
    (pHandleReset g) (pHandleGetStatus g) (pHandleRead g) (pHandleReadFD g)
    (pHandleWrite g) (pHandleWriteFD g) (pHandleFilterMessages g)
    (pHandleGetValue g) (pHandleSetValue g) (pHandleGetErrorText g)
    (pHandleLookUpChannel g) (apiLoaded g) true.

(** The package variables as [UnloadAPI] leaves them. *)
Definition released_globals : Globals :=
  mkGlobals (Some (mkDLL "PCANBasic.dll")) None None None None None None None
            None None None None None None None false false.

Definition opened (s : Script) : @World stub := mkWorld (E := stub) s opened_globals [].

Definition usb1 : TPCANBus := mkBus 81 28 0 0 0 0.

Definition frame (n : Z) : TPCANMsg := mkMsg (256 + n) 0 8 [n; 2; 3; 4; 5; 6; 7; 8].
Definition stamp (n : Z) : TPCANTimestamp := mkTimestamp n 0 0.
Definition frames (ns : list Z) : list (Z * TPCANMsg * TPCANTimestamp) :=
  map (fun n => (0, frame n, stamp n)) ns.

(** * Further functions of the package *)

(** Constants that the functions below use; like the others they come
    from the file that is not at hand and are parameters. *)
Class ChannelConsts := {
  PCAN_USBBUS1 : TPCANHandle;  PCAN_USBBUS2 : TPCANHandle;
  PCAN_USBBUS3 : TPCANHandle;  PCAN_USBBUS4 : TPCANHandle;
  PCAN_USBBUS5 : TPCANHandle;  PCAN_USBBUS6 : TPCANHandle;
  PCAN_USBBUS7 : TPCANHandle;  PCAN_USBBUS8 : TPCANHandle;
  PCAN_USBBUS9 : TPCANHandle;  PCAN_USBBUS10 : TPCANHandle;
  PCAN_USBBUS11 : TPCANHandle; PCAN_USBBUS12 : TPCANHandle;
  PCAN_USBBUS13 : TPCANHandle; PCAN_USBBUS14 : TPCANHandle;
  PCAN_USBBUS15 : TPCANHandle; PCAN_USBBUS16 : TPCANHandle;
  PCAN_CHANNEL_CONDITION : TPCANParameter;
  PCAN_CHANNEL_AVAILABLE : Z;
  PCAN_CHANNEL_OCCUPIED : Z;
  PCAN_CHANNEL_PCANVIEW : Z;
  PCAN_BAUD_1M : Z;
  PCAN_BAUD_500K : Z;
  PCAN_BAUD_250K : Z;
  PCAN_BAUD_125K : Z;
  as_TPCANMsgID : Z -> Z     (* the conversion TPCANMsgID(n) of an int *)
}.

Record TPCANBusFD := mkBusFD {
  HandleFD : TPCANHandle;
  BitrateFD : string
}.

(** [l] is [l'] with some elements left out, the order kept. *)
Inductive subseq {A : Type} : list A -> list A -> Prop :=
| subseq_nil : subseq [] []
| subseq_skip x l l' : subseq l l' -> subseq l (x :: l')
| subseq_take x l l' : subseq l l' -> subseq (x :: l) (x :: l').

(** Every entry point is resolved. *)
Definition resolved (g : Globals) : Prop :=
  pHandleInitialize g <> None /\ pHandleInitializeFD g <> None /\
  pHandleUninitialize g <> None /\ pHandleReset g <> None /\
  pHandleGetStatus g <> None /\ pHandleRead g <> None /\
  pHandleReadFD g <> None /\ pHandleWrite g <> None /\
  pHandleWriteFD g <> None /\ pHandleFilterMessages g <> None /\
  pHandleGetValue g <> None /\ pHandleSetValue g <> None /\
  pHandleGetErrorText g <> None /\ pHandleLookUpChannel g <> None.

(** The flag tells the truth: it is set only with every entry point
    resolved.  The initial values have it, and [LoadAPI] and [UnloadAPI]
    keep it. *)
Definition coherent (g : Globals) : Prop :=
  apiLoaded g = true -> resolved g.

Section More.

Context {C : Consts} {E : Env} {K : ChannelConsts}.

(** [InitializeFD] of pcanbasic.go: the library is loaded and the call is
    turned down. *)
Definition InitializeFD (channel : TPCANHandle) (bitRateFD : string)
  : M (TPCANStatus * option TPCANBusFD * option error) :=
  LoadAPI ;;;
  ret (PCAN_ERROR_UNKNOWN, None, Some (errors_New "Not implemented")).

(** [APIGetValue] of the later layout: [GetValue] on a bare handle. *)
Definition APIGetValue (handle : TPCANHandle) (param : TPCANParameter) (bufferSize : Z)
  : M (TPCANStatus * option error * list Z) :=
  g <- get_globals ;;
  ' (r, buffer, errno) <- Call (pHandleGetValue g)
                              (EvGetValue handle param bufferSize)
                              (CAN_GetValue handle param bufferSize) ;;
  ret (as_TPCANStatus r, syscallErr errno, buffer).

Definition posChannels : list TPCANHandle :=
  [PCAN_USBBUS1; PCAN_USBBUS2; PCAN_USBBUS3; PCAN_USBBUS4;
   PCAN_USBBUS5; PCAN_USBBUS6; PCAN_USBBUS7; PCAN_USBBUS8;
   PCAN_USBBUS9; PCAN_USBBUS10; PCAN_USBBUS11; PCAN_USBBUS12;
   PCAN_USBBUS13; PCAN_USBBUS14; PCAN_USBBUS15; PCAN_USBBUS16].

(** The loop of [AttachedChannels] over the channels still to ask, with
    the channels found so far.  The slice it returns is nil ([None]) when a
    query fails. *)
Fixpoint ask_channels (channels attachedChannels : list TPCANHandle)
  : M (option (list TPCANHandle) * option error) :=
  match channels with
  | [] => ret (Some attachedChannels, None)
  | channel :: rest =>
      ' (state, err, buffer) <-
        APIGetValue channel PCAN_CHANNEL_CONDITION
                    (uint32 (Z.of_nat sizeof_TPCANParameterValue)) ;;
      if negb (state =? PCAN_ERROR_OK) || negb (isNil err) then ret (None, err)
      else
        let cond := le_value (firstn sizeof_TPCANParameterValue buffer) in
        if (cond =? PCAN_CHANNEL_AVAILABLE) || (cond =? PCAN_CHANNEL_OCCUPIED)
           || (cond =? PCAN_CHANNEL_PCANVIEW)
        then ask_channels rest (attachedChannels ++ [channel])
        else ask_channels rest attachedChannels
  end.

(** [AttachedChannels] of the later layout. *)
Definition AttachedChannels : M (option (list TPCANHandle) * option error) :=
  ask_channels posChannels [].

(** [StringToChannel] and [StringToBaud] of examples/cli.go; the pointer
    they return is nil for anything they do not know. *)
Definition StringToChannel (channel : string) : option TPCANHandle :=
  if String.eqb channel "PCAN_USBBUS1" then Some PCAN_USBBUS1
  else if String.eqb channel "PCAN_USBBUS2" then Some PCAN_USBBUS2
  else if String.eqb channel "PCAN_USBBUS3" then Some PCAN_USBBUS3
  else if String.eqb channel "PCAN_USBBUS4" then Some PCAN_USBBUS4
  else if String.eqb channel "PCAN_USBBUS5" then Some PCAN_USBBUS5
  else if String.eqb channel "PCAN_USBBUS6" then Some PCAN_USBBUS6
  else None.

Definition StringToBaud (baudrate : Z) : option Z :=
  if baudrate =? 125000 then Some PCAN_BAUD_125K
  else if baudrate =? 250000 then Some PCAN_BAUD_250K
  else if baudrate =? 500000 then Some PCAN_BAUD_500K
  else if baudrate =? 1000000 then Some PCAN_BAUD_1M
  else None.

(** The message [example_cli] builds from its flags: the identifier, the
    bytes of the text of [msg_data] copied into the eight data bytes
    ([copy] stops at the shorter of the two), and the length of that text
    as the data length code.  The text is given as its bytes; the flag
    [extended] is parsed but has no part in the message. *)
Definition cli_data (msgData : list Z) : list Z :=
  firstn 8 msgData ++ repeat 0 (8 - List.length msgData).

Definition cli_message (msgID : Z) (msgData : list Z) (isExtended : bool) : TPCANMsg :=
  mkMsg (as_TPCANMsgID msgID) 0 (byte (len msgData)) (cli_data msgData).

End More.

(** ** A second scripted environment *)

Definition vendor_channels : ChannelConsts := {|
  PCAN_USBBUS1 := 81;    PCAN_USBBUS2 := 82;    PCAN_USBBUS3 := 83;
  PCAN_USBBUS4 := 84;    PCAN_USBBUS5 := 85;    PCAN_USBBUS6 := 86;
  PCAN_USBBUS7 := 87;    PCAN_USBBUS8 := 88;    PCAN_USBBUS9 := 1289;
  PCAN_USBBUS10 := 1290; PCAN_USBBUS11 := 1291; PCAN_USBBUS12 := 1292;
  PCAN_USBBUS13 := 1293; PCAN_USBBUS14 := 1294; PCAN_USBBUS15 := 1295;
  PCAN_USBBUS16 := 1296;
  PCAN_CHANNEL_CONDITION := 13;
  PCAN_CHANNEL_AVAILABLE := 1;
  PCAN_CHANNEL_OCCUPIED := 2;
  PCAN_CHANNEL_PCANVIEW := 3;
  PCAN_BAUD_1M := 20;
  PCAN_BAUD_500K := 28;
  PCAN_BAUD_250K := 284;
  PCAN_BAUD_125K := 796;
  as_TPCANMsgID := uint32
|}.

(** Like [stub], but every read leaves the last-error value 5 behind, and
    a get-value answers with the handle modulo 4 as the value. *)
Definition noisy : Env := {|
  dstate := Script;
  GOOS := "windows";
  os_LoadDLL := fun name s => ((Some (mkDLL name), None), s);
  os_FindProc := fun _ name => Some (mkProc name);
  os_Release := fun _ s => (None, s);
  os_Now := fun s =>
    match clock s with
    | [] => (0, s)
    | t :: ts => (t, mkScript (rx s) ts (waits s) (status s))
    end;
  os_Sleep := fun _ s => s;
  os_WaitForSingleObject := fun _ _ s =>
    match waits s with
    | [] => ((WAIT_TIMEOUT, 0), s)
    | v :: vs => ((v, 6), mkScript (rx s) (clock s) vs (status s))
    end;
  CAN_Uninitialize := fun _ s => ((status s, Some 0), s);
  CAN_Reset := fun _ s => ((status s, Some 0), s);
  CAN_GetStatus := fun _ s => ((status s, Some 0), s);
  CAN_Read := fun _ s =>
    match rx s with
    | [] => ((32, zero_msg, zero_timestamp, Some 5), s)
    | (st, m, t) :: q => ((st, m, t, Some 5), mkScript q (clock s) (waits s) (status s))
    end;
  CAN_Write := fun _ _ s => ((status s, Some 0), s);
  CAN_GetValue := fun h _ size s =>
    ((status s, le_bytes (Z.to_nat size) (h mod 4), Some 0), s);
  CAN_SetValue := fun _ _ _ _ s => ((status s, Some 0), s)
|}.

Definition noisy_opened (s : Script) : @World noisy :=
  mkWorld (E := noisy) s opened_globals [].

(** A script with nothing queued, and the log of asking all channels. *)
Definition idle : Script := mkScript [] [] [] 0.

Definition asked_all : list Event :=
  map (fun ch => EvGetValue ch 13 4) (posChannels (K := vendor_channels)).

(** * Properties *)

Section Properties.

Context {C : Consts} {E : Env}.

(** ** The monad *)

Lemma bind_Returns {A B} (m : M A) (k : A -> M B) w b w'' :
  bind m k w = Returns b w'' <->
  exists a w', m w = Returns a w' /\ k a w' = Returns b w''.
Proof.
  unfold bind. split.
  - destruct (m w) as [a w'| |]; intros H; try discriminate.
    exists a, w'. split; [reflexivity | exact H].
  - intros (a & w' & Hm & Hk). rewrite Hm. exact Hk.
Qed.

Lemma bind_step {A B} (m : M A) (k : A -> M B) w a w' :
  m w = Returns a w' -> bind m k w = k a w'.
Proof. unfold bind. intros ->. reflexivity. Qed.

Lemma extends_trans w1 w2 w3 e1 e2 :
  extends w1 w2 e1 -> extends w2 w3 e2 -> extends w1 w3 (e1 ++ e2).
Proof.
  intros [G1 L1] [G2 L2]. split.
  - congruence.
  - rewrite L2, L1, app_assoc. reflexivity.
Qed.

Lemma interact_extends {R} ev (f : dstate -> R * dstate) w r w' :
  interact ev f w = Returns r w' -> extends w w' [ev].
Proof.
  unfold interact. destruct (f (drv w)) as [r0 d]. intros H.
  inversion H; subst. split; reflexivity.
Qed.

Lemma interact_total {R} ev (f : dstate -> R * dstate) w :
  exists r w', interact ev f w = Returns r w'.
Proof.
  unfold interact. destruct (f (drv w)) as [r d]. eauto.
Qed.

(** ** [Read] *)

(** What [Read] does once the entry point is resolved. *)
Lemma Read_resolved p w pr :
  pHandleRead (glob w) = Some pr ->
  Read p w =
  let '(r, msg, timeStamp, errno, d) := CAN_Read (Handle p) (drv w) in
  let w' := mkWorld d (glob w) (calls w ++ [EvRead (Handle p)]) in
  if as_TPCANStatus r =? PCAN_ERROR_QRCVEMPTY
  then Returns (as_TPCANStatus r, None, None, syscallErr errno) w'
  else Returns (as_TPCANStatus r, Some msg, Some timeStamp, syscallErr errno) w'.
Proof.
  intros Hp. unfold Read, bind, get_globals, Call. rewrite Hp.
  unfold interact.
  destruct (CAN_Read (Handle p) (drv w)) as [[[[r msg] ts] errno] d].
  destruct (as_TPCANStatus r =? PCAN_ERROR_QRCVEMPTY); reflexivity.
Qed.

(** Both layouts of [Read] are the same function. *)
Lemma Read_via_API_eq p w : Read_via_API p w = Read p w.
Proof.
  unfold Read_via_API, APIRead, Read, bind, get_globals, Call.
  destruct (pHandleRead (glob w)); [|reflexivity].
  unfold interact.
  destruct (CAN_Read (Handle p) (drv w)) as [[[[r msg] ts] errno] d].
  unfold ret. destruct (as_TPCANStatus r =? PCAN_ERROR_QRCVEMPTY); reflexivity.
Qed.

Lemma Read_nil p w :
  pHandleRead (glob w) = None -> Read p w = Panics w.
Proof.
  intros Hp. unfold Read, bind, get_globals, Call. rewrite Hp. reflexivity.
Qed.

Lemma Read_inv p w st m t e w' :
  Read p w = Returns (st, m, t, e) w' ->
  extends w w' [EvRead (Handle p)] /\
  ((st = PCAN_ERROR_QRCVEMPTY /\ m = None /\ t = None) \/
   (st <> PCAN_ERROR_QRCVEMPTY /\ exists m' t', m = Some m' /\ t = Some t')).
Proof.
  destruct (pHandleRead (glob w)) as [pr|] eqn:Hp.
  - rewrite (Read_resolved _ _ _ Hp).
    destruct (CAN_Read (Handle p) (drv w)) as [[[[r msg] ts] errno] d].
    destruct (as_TPCANStatus r =? PCAN_ERROR_QRCVEMPTY) eqn:Hq;
      intros H; inversion H; subst; (split; [split; reflexivity|]).
    + left. apply Z.eqb_eq in Hq. auto.
    + right. apply Z.eqb_neq in Hq. eauto.
  - rewrite (Read_nil _ _ Hp). discriminate.
Qed.

Lemma Read_frame_status p w st m t e w' :
  Read p w = Returns (st, Some m, t, e) w' ->
  (st =? PCAN_ERROR_QRCVEMPTY) = false /\ exists t', t = Some t'.
Proof.
  intros H. apply Read_inv in H. destruct H as [_ [(_ & D & _)|(N & m' & t' & _ & Ht)]].
  - discriminate.
  - split; [apply Z.eqb_neq; exact N | eauto].
Qed.

Lemma now_ms_extends w t w' : now_ms w = Returns t w' -> extends w w' [EvNow].
Proof.
  unfold now_ms. intros H. apply bind_Returns in H.
  destruct H as (ns & w1 & H1 & H2). apply interact_extends in H1.
  unfold ret in H2. inversion H2; subst. exact H1.
Qed.

Lemma now_ms_total w : exists t w', now_ms w = Returns t w'.
Proof.
  unfold now_ms, bind. destruct (interact_total EvNow os_Now w) as (ns & w' & ->).
  unfold ret. eauto.
Qed.

Lemma Sleep_extends ns w u w' : Sleep ns w = Returns u w' -> extends w w' [EvSleep ns].
Proof. unfold Sleep. apply interact_extends. Qed.

Lemma Sleep_total ns w : exists w', Sleep ns w = Returns tt w'.
Proof.
  unfold Sleep, interact. eauto.
Qed.

Lemma Wait_extends h ms w r w' :
  WaitForSingleObject h ms w = Returns r w' -> extends w w' [EvWait h ms].
Proof.
  unfold WaitForSingleObject. intros H. apply bind_Returns in H.
  destruct H as ([r0 e1] & w1 & H1 & H2). apply interact_extends in H1.
  destruct (uint32 r0 =? 4294967295); unfold ret in H2; inversion H2; subst; exact H1.
Qed.

(** The wait hands back an error only together with [WAIT_FAILED]. *)
Lemma Wait_error h ms w val errWait w' :
  WaitForSingleObject h ms w = Returns (val, errWait) w' ->
  val <> WAIT_FAILED -> errWait = None.
Proof.
  unfold WaitForSingleObject. intros H Hv. apply bind_Returns in H.
  destruct H as ([r0 e1] & w1 & _ & H2).
  destruct (uint32 r0 =? 4294967295) eqn:Hq; unfold ret in H2; inversion H2; subst.
  - apply Z.eqb_eq in Hq. contradiction.
  - reflexivity.
Qed.

(** ** The loop of [ReadWithTimeout] *)

Lemma receive_done fuel p tU eT st m t e w :
  receive fuel p tU eT (st, Some m, t, e) w = Returns (st, Some m, t, e) w.
Proof. destruct fuel; reflexivity. Qed.

(** One turn of the loop, read backwards from a returned result: the turn
    reads once; a frame ends the loop with the world of that read; on
    queue-empty the turn waits (event) or looks at the clock (polling). *)
Lemma receive_turn fuel p tU eT st0 t0 e0 w r w' :
  receive (S fuel) p tU eT (st0, None, t0, e0) w = Returns r w' ->
  exists st m t e w1,
    Read p w = Returns (st, m, t, e) w1 /\
    ((exists m', m = Some m' /\ r = (st, m, t, e) /\ w' = w1) \/
     (st = PCAN_ERROR_QRCVEMPTY /\ m = None /\ t = None /\
      ((hasEvents (glob w1) = true /\
        exists val errWait w2,
          WaitForSingleObject (recvEvent p) tU w1 = Returns (val, errWait) w2 /\
          ((val = WAIT_OBJECT_0 /\
            receive fuel p tU eT (st, None, None, e) w2 = Returns r w') \/
           (val <> WAIT_OBJECT_0 /\ r = (st, None, None, errWait) /\ w' = w2))) \/
       (hasEvents (glob w1) = false /\
        exists now w2,
          now_ms w1 = Returns now w2 /\
          ((now > eT /\ r = (st, None, None, e) /\ w' = w2) \/
           (now <= eT /\
            exists w3, Sleep (250 * Microsecond) w2 = Returns tt w3 /\
                       receive fuel p tU eT (st, None, None, e) w3 = Returns r w')))))).
Proof.
  cbn [receive]. intros H. apply bind_Returns in H.
  destruct H as ([[[st m] t] e] & w1 & HR & H).
  exists st, m, t, e, w1. split; [exact HR|].
  destruct (Read_inv _ _ _ _ _ _ _ HR) as [_ [(Hst & Hm & Ht)|(Hst & m' & t' & Hm & Ht)]].
  - right. subst st m t. rewrite Z.eqb_refl in H.
    repeat split. unfold bind at 1, get_globals at 1 in H.
    destruct (hasEvents (glob w1)) eqn:Hev.
    + left. split; [reflexivity|].
      apply bind_Returns in H. destruct H as ([val errWait] & w2 & HW & H).
      exists val, errWait, w2. split; [exact HW|].
      destruct (val =? WAIT_OBJECT_0) eqn:H0.
      * left. apply Z.eqb_eq in H0. auto.
      * right. apply Z.eqb_neq in H0. split; [exact H0|].
        destruct (val =? WAIT_FAILED); [|destruct (val =? WAIT_TIMEOUT)];
          unfold ret in H; inversion H; auto.
    + right. split; [reflexivity|].
      apply bind_Returns in H. destruct H as (now & w2 & HN & H).
      exists now, w2. split; [exact HN|].
      destruct (now >? eT) eqn:Hd.
      * left. apply Z.gtb_gt in Hd. unfold ret in H. inversion H. auto.
      * right. split; [rewrite Z.gtb_ltb in Hd; apply Z.ltb_ge in Hd; exact Hd|].
        apply bind_Returns in H. destruct H as ([] & w3 & HS & H).
        exists w3. auto.
  - left. subst m t. apply Z.eqb_neq in Hst. rewrite Hst in H.
    rewrite receive_done in H. inversion H. eauto.
Qed.

(** A turn whose read brings a frame returns it at once. *)
Lemma receive_frame fuel p tU eT st0 t0 e0 w st m t e w1 :
  Read p w = Returns (st, Some m, t, e) w1 ->
  receive (S fuel) p tU eT (st0, None, t0, e0) w = Returns (st, Some m, t, e) w1.
Proof.
  intros HR. cbn [receive]. rewrite (bind_step _ _ _ _ _ HR).
  destruct (Read_frame_status _ _ _ _ _ _ _ HR) as [-> _].
  apply receive_done.
Qed.

(** Every returned result has the shape of a result of [Read]: the two
    pointers are nil together. *)
Lemma receive_paired fuel : forall p tU eT st0 m0 t0 e0 w st m t e w',
  (m0 = None <-> t0 = None) ->
  receive fuel p tU eT (st0, m0, t0, e0) w = Returns (st, m, t, e) w' ->
  (m = None <-> t = None).
Proof.
  induction fuel as [|fuel IH]; intros p tU eT st0 m0 t0 e0 w st m t e w' Hpair H.
  - destruct m0 as [m0|]; cbn in H; [|discriminate].
    unfold ret in H. inversion H; subst. exact Hpair.
  - destruct m0 as [m0|].
    + rewrite receive_done in H. inversion H; subst. exact Hpair.
    + apply receive_turn in H.
      destruct H as (st1 & m1 & t1 & e1 & w1 & HR & [(m' & Hm & Hr & _)|(Hst & Hm & Ht & Hrest)]).
      * inversion Hr; subst.
        destruct (Read_frame_status _ _ _ _ _ _ _ HR) as [_ [t' ->]].
        split; discriminate.
      * destruct Hrest as [(_ & val & errWait & w2 & _ & [(_ & Hrec)|(_ & Hr & _)])
                          |(_ & now & w2 & _ & [(_ & Hr & _)|(_ & w3 & _ & Hrec)])].
        -- eapply IH; [|exact Hrec]. tauto.
        -- inversion Hr. tauto.
        -- inversion Hr. tauto.
        -- eapply IH; [|exact Hrec]. tauto.
Qed.

(** A returned frame is the answer of the last call that crossed the
    boundary, a read. *)
Lemma receive_last_read fuel : forall p tU eT st0 t0 e0 w st m t e w',
  receive fuel p tU eT (st0, None, t0, e0) w = Returns (st, Some m, t, e) w' ->
  exists w0, Read p w0 = Returns (st, Some m, t, e) w'.
Proof.
  induction fuel as [|fuel IH]; intros p tU eT st0 t0 e0 w st m t e w' H.
  - discriminate.
  - apply receive_turn in H.
    destruct H as (st1 & m1 & t1 & e1 & w1 & HR & [(m' & Hm & Hr & Hw)|(Hst & Hm & Ht & Hrest)]).
    + rewrite <- Hr in HR. subst w'. exists w. exact HR.
    + destruct Hrest as [(_ & val & errWait & w2 & _ & [(_ & Hrec)|(_ & Hr & _)])
                        |(_ & now & w2 & _ & [(_ & Hr & _)|(_ & w3 & _ & Hrec)])].
      * eapply IH. exact Hrec.
      * discriminate.
      * discriminate.
      * eapply IH. exact Hrec.
Qed.

(** The loop reads before anything else, and only adds to the log. *)
Lemma receive_reads_first fuel : forall p tU eT st0 t0 e0 w r w',
  receive fuel p tU eT (st0, None, t0, e0) w = Returns r w' ->
  exists evs, extends w w' (EvRead (Handle p) :: evs).
Proof.
  induction fuel as [|fuel IH]; intros p tU eT st0 t0 e0 w r w' H.
  - discriminate.
  - apply receive_turn in H.
    destruct H as (st1 & m1 & t1 & e1 & w1 & HR & Hcases).
    destruct (Read_inv _ _ _ _ _ _ _ HR) as [Hext _].
    destruct Hcases as [(m' & Hm & Hr & Hw)|(Hst & Hm & Ht & Hrest)].
    + subst w'. exists []. exact Hext.
    + destruct Hrest as [(_ & val & errWait & w2 & HW & [(_ & Hrec)|(_ & Hr & Hw)])
                        |(_ & now & w2 & HN & [(_ & Hr & Hw)|(_ & w3 & HS & Hrec)])].
      * apply Wait_extends in HW. apply IH in Hrec. destruct Hrec as [evs Hrec].
        eexists. exact (extends_trans _ _ _ _ _ (extends_trans _ _ _ _ _ Hext HW) Hrec).
      * subst w'. apply Wait_extends in HW.
        eexists. exact (extends_trans _ _ _ _ _ Hext HW).
      * subst w'. apply now_ms_extends in HN.
        eexists. exact (extends_trans _ _ _ _ _ Hext HN).
      * apply now_ms_extends in HN. apply Sleep_extends in HS.
        apply IH in Hrec. destruct Hrec as [evs Hrec].
        eexists.
        exact (extends_trans _ _ _ _ _
                 (extends_trans _ _ _ _ _ (extends_trans _ _ _ _ _ Hext HN) HS) Hrec).
Qed.

(** A fruitless turn uses up one unit of fuel and leaves the loop with
    queue-empty and nil pointers. *)
Lemma receive_waits_on p tU eT st0 t0 e0 w w' :
  waits_on p tU eT w w' ->
  exists e, forall fuel,
    receive (S fuel) p tU eT (st0, None, t0, e0) w =
    receive fuel p tU eT (PCAN_ERROR_QRCVEMPTY, None, None, e) w'.
Proof.
  intros [w_ e w1 errWait w2 HR Hev HW | w_ e w1 now w2 w3 HR Hev HN Hle HS];
    exists e; intros fuel; cbn [receive];
    rewrite (bind_step _ _ _ _ _ HR), Z.eqb_refl;
    unfold bind at 1, get_globals at 1; rewrite Hev.
  - rewrite (bind_step _ _ _ _ _ HW). reflexivity.
  - rewrite (bind_step _ _ _ _ _ HN).
    replace (now >? eT) with false
      by (symmetry; rewrite Z.gtb_ltb; apply Z.ltb_ge; exact Hle).
    rewrite (bind_step _ _ _ _ _ HS). reflexivity.
Qed.

Lemma receive_fruitless p tU eT n w w' :
  fruitless p tU eT n w w' ->
  forall st0 t0 e0, exists st1 t1 e1, forall fuel,
    receive (n + fuel) p tU eT (st0, None, t0, e0) w =
    receive fuel p tU eT (st1, None, t1, e1) w'.
Proof.
  induction 1 as [w | n w w1 w' Hturn _ IH]; intros st0 t0 e0.
  - exists st0, t0, e0. reflexivity.
  - destruct (receive_waits_on _ _ _ st0 t0 e0 _ _ Hturn) as [e He].
    destruct (IH PCAN_ERROR_QRCVEMPTY None e) as (st1 & t1 & e1 & Hrest).
    exists st1, t1, e1. intros fuel. cbn [Nat.add]. rewrite He. apply Hrest.
Qed.

(** The turn in which the deadline passes ends the loop with the
    queue-empty status, nil pointers and the error of that turn. *)
Lemma receive_deadline fuel p tU eT st0 t0 e0 w err w' :
  deadline_passes p tU eT w err w' ->
  receive (S fuel) p tU eT (st0, None, t0, e0) w =
  Returns (PCAN_ERROR_QRCVEMPTY, None, None, err) w'.
Proof.
  intros [w_ e w1 errWait w2 HR Hev HW | w_ e w1 now w2 HR Hev HN Hgt];
    cbn [receive]; rewrite (bind_step _ _ _ _ _ HR), Z.eqb_refl;
    unfold bind at 1, get_globals at 1; rewrite Hev.
  - rewrite (bind_step _ _ _ _ _ HW). reflexivity.
  - rewrite (bind_step _ _ _ _ _ HN).
    replace (now >? eT) with true by (symmetry; apply Z.gtb_gt; exact Hgt).
    reflexivity.
Qed.

(** A timed-out wait leaves no error behind. *)
Lemma deadline_wait_no_error p tU eT w e w1 errWait w2 :
  Read p w = Returns (PCAN_ERROR_QRCVEMPTY, None, None, e) w1 ->
  hasEvents (glob w1) = true ->
  WaitForSingleObject (recvEvent p) tU w1 = Returns (WAIT_TIMEOUT, errWait) w2 ->
  deadline_passes p tU eT w None w2.
Proof.
  intros HR Hev HW.
  assert (errWait = None) as <-.
  { eapply Wait_error; [exact HW | discriminate]. }
  eapply deadline_wait; eassumption.
Qed.

Lemma ReadWithTimeout_unfold fuel p timeout w now w0 :
  now_ms w = Returns now w0 ->
  ReadWithTimeout fuel p timeout w =
  let T := if timeout <? 0 then INFINITE else timeout in
  receive fuel p (uint32 T) (int64 (now + int64 T))
          (PCAN_ERROR_UNKNOWN, None, None, None) w0.
Proof.
  intros HN. unfold ReadWithTimeout. rewrite (bind_step _ _ _ _ _ HN). reflexivity.
Qed.

(** A negative timeout becomes [INFINITE] milliseconds: the wait on the
    event is unbounded, the deadline of the polling path is not. *)
Lemma ReadWithTimeout_negative_deadline fuel p timeout w now w0 :
  timeout < 0 ->
  now_ms w = Returns now w0 ->
  ReadWithTimeout fuel p timeout w =
  receive fuel p 4294967295 (int64 (now + 4294967295))
          (PCAN_ERROR_UNKNOWN, None, None, None) w0.
Proof.
  intros Hneg HN. rewrite (ReadWithTimeout_unfold _ _ _ _ _ _ HN).
  replace (timeout <? 0) with true by (symmetry; apply Z.ltb_lt; exact Hneg).
  reflexivity.
Qed.

(** ** [ReadWithTimeout] *)


(** C2.  Whatever the timeout: after any number [n] of fruitless turns,
    the turn whose read returns a frame ends [ReadWithTimeout], which
    returns that frame with its status, its timestamp and the error of
    that read.  The world it returns in is the world right after that
    read, whose only addition to the log is the read itself: no further
    read and no wait takes place, whatever is still queued. *)
Theorem ReadWithTimeout_stops_at_first_frame p timeout w now w0 n w1 st m t e w2 :
  now_ms w = Returns now w0 ->
  fruitless p (uint32 (if timeout <? 0 then INFINITE else timeout))
            (int64 (now + int64 (if timeout <? 0 then INFINITE else timeout)))
            n w0 w1 ->
  Read p w1 = Returns (st, Some m, t, e) w2 ->
  forall fuel, (n < fuel)%nat ->
    ReadWithTimeout fuel p timeout w = Returns (st, Some m, t, e) w2 /\
    (exists t', t = Some t') /\
    extends w1 w2 [EvRead (Handle p)].
Proof.
  intros HN Hturns HR fuel Hfuel.
  rewrite (ReadWithTimeout_unfold _ _ _ _ _ _ HN). cbv zeta.
  destruct (receive_fruitless _ _ _ _ _ _ Hturns PCAN_ERROR_UNKNOWN None None)
    as (st1 & t1 & e1 & Hrun).
  replace fuel with (n + S (fuel - S n))%nat by lia.
  rewrite Hrun. split; [|split].
  - apply receive_frame. exact HR.
  - apply (Read_frame_status _ _ _ _ _ _ _ HR).
  - apply (Read_inv _ _ _ _ _ _ _ HR).
Qed.

(** C4.  With timeout 0 every call that returns has read the clock and
    then made a read attempt, so the log grows by [EvNow], [EvRead] and
    whatever follows; and a frame that the first read finds queued is
    returned (with any fuel at all), not the empty outcome. *)
Theorem ReadWithTimeout_zero_reads_once :
  (forall fuel p w r w',
      ReadWithTimeout fuel p 0 w = Returns r w' ->
      exists evs, extends w w' (EvNow :: EvRead (Handle p) :: evs)) /\
  (forall fuel p w now w0 st m t e w1,
      now_ms w = Returns now w0 ->
      Read p w0 = Returns (st, Some m, t, e) w1 ->
      ReadWithTimeout (S fuel) p 0 w = Returns (st, Some m, t, e) w1).
Proof.
  split.
  - intros fuel p w r w' H.
    destruct (now_ms_total w) as (now & w0 & HN).
    rewrite (ReadWithTimeout_unfold _ _ _ _ _ _ HN) in H. cbv zeta in H.
    apply receive_reads_first in H. destruct H as [evs H].
    exists evs. apply now_ms_extends in HN.
    exact (extends_trans _ _ _ _ _ HN H).
  - intros fuel p w now w0 st m t e w1 HN HR.
    rewrite (ReadWithTimeout_unfold _ _ _ _ _ _ HN). cbv zeta.
    apply receive_frame. exact HR.
Qed.

(** C6.  [Read] and [ReadWithTimeout] return the message pointer and the
    timestamp pointer nil together or non-nil together; and [Read] does
    return once its entry point is resolved. *)
Theorem Read_pointers_nil_together :
  (forall p w st m t e w',
      Read p w = Returns (st, m, t, e) w' -> (m = None <-> t = None)) /\
  (forall fuel p timeout w st m t e w',
      ReadWithTimeout fuel p timeout w = Returns (st, m, t, e) w' ->
      (m = None <-> t = None)) /\
  (forall p w, pHandleRead (glob w) <> None ->
      exists st m t e w', Read p w = Returns (st, m, t, e) w').
Proof.
  split; [|split].
  - intros p w st m t e w' H. apply Read_inv in H.
    destruct H as [_ [(_ & -> & ->)|(_ & m' & t' & -> & ->)]].
    + tauto.
    + split; discriminate.
  - intros fuel p timeout w st m t e w' H.
    destruct (now_ms_total w) as (now & w0 & HN).
    rewrite (ReadWithTimeout_unfold _ _ _ _ _ _ HN) in H. cbv zeta in H.
    eapply receive_paired; [|exact H]. tauto.
  - intros p w Hp. destruct (pHandleRead (glob w)) as [pr|] eqn:Hpr; [|contradiction].
    rewrite (Read_resolved _ _ _ Hpr).
    destruct (CAN_Read (Handle p) (drv w)) as [[[[r msg] ts] errno] d].
    destruct (as_TPCANStatus r =? PCAN_ERROR_QRCVEMPTY); eauto 6.
Qed.

(** ** [ReadFullBuffer] *)

(** What a turn of the drain does with the two answers a read can give. *)
Lemma drain_empty fuel p limit msgs tss w e w' :
  Read p w = Returns (PCAN_ERROR_QRCVEMPTY, None, None, e) w' ->
  drain (S fuel) p limit msgs tss w = Returns (msgs, tss, e) w'.
Proof.
  intros HR. cbn [drain]. rewrite (bind_step _ _ _ _ _ HR), Z.eqb_refl. reflexivity.
Qed.

Lemma drain_frame fuel p limit msgs tss w st m t e w' :
  Read p w = Returns (st, Some m, Some t, e) w' ->
  drain (S fuel) p limit msgs tss w =
  if negb (limit =? 0) && (len (msgs ++ [m]) >=? limit)
  then Returns (msgs ++ [m], tss ++ [t], e) w'
  else drain fuel p limit (msgs ++ [m]) (tss ++ [t]) w'.
Proof.
  intros HR. cbn [drain]. rewrite (bind_step _ _ _ _ _ HR).
  destruct (Read_frame_status _ _ _ _ _ _ _ HR) as [-> _].
  destruct (negb (limit =? 0) && (len (msgs ++ [m]) >=? limit)); reflexivity.
Qed.

Lemma len_app_one {A} (l : list A) (x : A) : len (l ++ [x]) = len l + 1.
Proof. unfold len. rewrite length_app. cbn. lia. Qed.

(** The drain with a positive limit, started with fewer than [limit]
    messages in hand, on a queue holding [q]. *)
Lemma drain_bounded p limit : forall q msgs tss w,
  queued p q w ->
  len msgs < limit ->
  forall fuel, (length q < fuel)%nat ->
  let k := Z.to_nat (limit - len msgs) in
  exists e w',
    drain fuel p limit msgs tss w =
    Returns (msgs ++ map fst (firstn k q), tss ++ map snd (firstn k q), e) w' /\
    ((k <= length q)%nat -> queued p (skipn k q) w').
Proof.
  induction q as [|[m t] q IH]; intros msgs tss w Hq Hlen fuel Hfuel k.
  - destruct Hq as (e & w' & HR). exists e, w'.
    destruct fuel as [|fuel]; [cbn in Hfuel; lia|].
    rewrite (drain_empty _ _ _ _ _ _ _ _ HR).
    rewrite firstn_nil. cbn [map]. rewrite !app_nil_r. split; [reflexivity|].
    cbn [length]. subst k. lia.
  - destruct Hq as (st & e & w1 & HR & Hq).
    destruct fuel as [|fuel]; [cbn in Hfuel; lia|].
    rewrite (drain_frame _ _ _ _ _ _ _ _ _ _ _ HR).
    replace (limit =? 0) with false by (symmetry; apply Z.eqb_neq; unfold len in Hlen; lia).
    cbn [negb andb]. rewrite len_app_one.
    destruct (len msgs + 1 >=? limit) eqn:Hge.
    + rewrite Z.geb_leb in Hge. apply Z.leb_le in Hge.
      assert (Hk : k = 1%nat) by (subst k; lia). rewrite Hk.
      exists e, w1. cbn [firstn map fst snd skipn]. split; [reflexivity|].
      intros _. exact Hq.
    + rewrite Z.geb_leb in Hge. apply Z.leb_gt in Hge.
      assert (Hk : k = S (Z.to_nat (limit - len (msgs ++ [m])))).
      { subst k. rewrite len_app_one. lia. }
      cbn [length] in Hfuel.
      destruct (IH (msgs ++ [m]) (tss ++ [t]) w1 Hq) with (fuel := fuel)
        as (e' & w' & Hrun & Hrest).
      * rewrite len_app_one. lia.
      * lia.
      * exists e', w'. rewrite Hk. cbn [firstn map fst snd skipn length].
        rewrite Hrun, <- !app_assoc. cbn [app]. split; [reflexivity|].
        intros Hle. apply Hrest. lia.
Qed.

(** The drain without a limit on a queue holding [q]: it ends on the read
    that reports queue-empty. *)
Lemma drain_unbounded p : forall q msgs tss w,
  queued p q w ->
  forall fuel, (length q < fuel)%nat ->
  exists e w0 w',
    drain fuel p 0 msgs tss w =
    Returns (msgs ++ map fst q, tss ++ map snd q, e) w' /\
    Read p w0 = Returns (PCAN_ERROR_QRCVEMPTY, None, None, e) w'.
Proof.
  induction q as [|[m t] q IH]; intros msgs tss w Hq fuel Hfuel.
  - destruct Hq as (e & w' & HR). exists e, w, w'.
    destruct fuel as [|fuel]; [cbn in Hfuel; lia|].
    rewrite (drain_empty _ _ _ _ _ _ _ _ HR). cbn [map]. rewrite !app_nil_r.
    split; [reflexivity | exact HR].
  - destruct Hq as (st & e & w1 & HR & Hq).
    destruct fuel as [|fuel]; [cbn in Hfuel; lia|].
    rewrite (drain_frame _ _ _ _ _ _ _ _ _ _ _ HR).
    rewrite Z.eqb_refl. cbn [negb andb].
    cbn [length] in Hfuel.
    destruct (IH (msgs ++ [m]) (tss ++ [t]) w1 Hq fuel) as (e' & w0 & w' & Hrun & Hlast);
      [lia|].
    exists e', w0, w'. rewrite Hrun. cbn [map fst snd]. rewrite <- !app_assoc.
    cbn [app]. split; [reflexivity | exact Hlast].
Qed.

(** C5.  On a channel whose receive queue holds the frames [q] (oldest
    first, [k] of them): with a limit [0 < limit], [ReadFullBuffer] returns
    the first [min limit k] of them in arrival order as messages and
    timestamps, and when the limit was reached the rest of [q] is still
    queued afterwards; with limit 0 it returns all of [q] in arrival
    order and ends on the read that reports queue-empty.  Any fuel above
    [k] gives these results. *)
Theorem ReadFullBuffer_drains_in_order p q w :
  queued p q w ->
  (forall limit fuel, 0 < limit -> (length q < fuel)%nat ->
     let taken := firstn (Z.to_nat limit) q in
     exists e w',
       ReadFullBuffer fuel p limit w = Returns (map fst taken, map snd taken, e) w' /\
       len taken = Z.min limit (len q) /\
       (limit <= len q -> queued p (skipn (Z.to_nat limit) q) w')) /\
  (forall fuel, (length q < fuel)%nat ->
     exists e w0 w',
       ReadFullBuffer fuel p 0 w = Returns (map fst q, map snd q, e) w' /\
       Read p w0 = Returns (PCAN_ERROR_QRCVEMPTY, None, None, e) w').
Proof.
  intros Hq. split.
  - intros limit fuel Hpos Hfuel taken.
    destruct (drain_bounded p limit q [] [] w Hq) with (fuel := fuel)
      as (e & w' & Hrun & Hrest); [cbn; lia | exact Hfuel |].
    change (len (@nil TPCANMsg)) with 0 in Hrun, Hrest.
    rewrite Z.sub_0_r in Hrun, Hrest.
    exists e, w'. split; [exact Hrun|]. split.
    + subst taken. unfold len. rewrite length_firstn. lia.
    + intros Hle. apply Hrest. unfold len in Hle. lia.
  - intros fuel Hfuel.
    destruct (drain_unbounded p q [] [] w Hq fuel Hfuel) as (e & w0 & w' & Hrun & Hlast).
    exists e, w0, w'. split; [exact Hrun | exact Hlast].
Qed.

(** C9, as the code has it.  When a read inside [ReadFullBuffer] returns
    a status other than queue-empty, whichever it is, the message and the
    timestamp of that read are appended and the drain reads on, unless
    the limit is not zero and the number of messages in hand has reached
    it, in which case the drain returns what it has gathered.  Whether it
    stops does not depend on the status, which is not part of what is
    returned; without a limit the drain always reads on. *)
Theorem ReadFullBuffer_appends_whatever_the_status fuel p limit msgs tss w st om ot e w' :
  Read p w = Returns (st, om, ot, e) w' ->
  st <> PCAN_ERROR_QRCVEMPTY ->
  exists m t,
    om = Some m /\ ot = Some t /\
    drain (S fuel) p limit msgs tss w =
      (if negb (limit =? 0) && (len (msgs ++ [m]) >=? limit)
       then Returns (msgs ++ [m], tss ++ [t], e) w'
       else drain fuel p limit (msgs ++ [m]) (tss ++ [t]) w') /\
    drain (S fuel) p 0 msgs tss w = drain fuel p 0 (msgs ++ [m]) (tss ++ [t]) w'.
Proof.
  intros HR Hst.
  destruct (Read_inv _ _ _ _ _ _ _ HR) as [_ [(Hq & _)|(_ & m & t & -> & ->)]];
    [contradiction|].
  exists m, t. split; [reflexivity|]. split; [reflexivity|]. split.
  - exact (drain_frame _ _ _ _ _ _ _ _ _ _ _ HR).
  - rewrite (drain_frame _ _ 0 _ _ _ _ _ _ _ _ HR). reflexivity.
Qed.

(** C10.  With a negative limit, on a channel whose first read yields a
    frame, [ReadFullBuffer] returns that one message and its timestamp
    and nothing more: the comparison of the length with the limit holds as
    soon as one message is in hand. *)
Theorem ReadFullBuffer_negative_limit_takes_one fuel p limit w st m ot e w' :
  limit < 0 ->
  Read p w = Returns (st, Some m, ot, e) w' ->
  exists t, ot = Some t /\
    ReadFullBuffer (S fuel) p limit w = Returns ([m], [t], e) w'.
Proof.
  intros Hneg HR.
  destruct (Read_frame_status _ _ _ _ _ _ _ HR) as [_ [t ->]].
  exists t. split; [reflexivity|].
  unfold ReadFullBuffer. rewrite (drain_frame _ _ _ _ _ _ _ _ _ _ _ HR).
  replace (limit =? 0) with false by (symmetry; apply Z.eqb_neq; lia).
  replace (len ([] ++ [m]) >=? limit) with true
    by (symmetry; rewrite Z.geb_leb; apply Z.leb_le; cbn; lia).
  reflexivity.
Qed.

(** ** [SetValue] and [StartTrace] *)

Lemma SetValue_inv p param buffer size w r w' :
  SetValue p param buffer size w = Returns r w' ->
  extends w w' [EvSetValue (Handle p) param buffer size].
Proof.
  unfold SetValue, bind, get_globals, Call.
  destruct (pHandleSetValue (glob w)); [|discriminate].
  destruct (interact _ _ w) as [[r0 errno] w1| |] eqn:Hi; try discriminate.
  apply interact_extends in Hi. unfold ret. intros H. inversion H; subst. exact Hi.
Qed.

Lemma SetValue_total p param buffer size w :
  pHandleSetValue (glob w) <> None ->
  exists r w', SetValue p param buffer size w = Returns r w'.
Proof.
  intros Hp. unfold SetValue, bind, get_globals, Call.
  destruct (pHandleSetValue (glob w)); [|contradiction].
  destruct (interact_total (EvSetValue (Handle p) param buffer size)
                           (CAN_SetValue (Handle p) param buffer size) w)
    as ([r0 errno] & w' & ->).
  unfold ret. eauto.
Qed.

Lemma extends_resolved w w' evs :
  extends w w' evs -> pHandleSetValue (glob w) <> None ->
  pHandleSetValue (glob w') <> None.
Proof. intros [-> _] H. exact H. Qed.

Lemma refused_true state (err : option error) :
  negb (isNil err) || negb (state =? PCAN_ERROR_OK) = true -> refused state err.
Proof.
  intros H. apply orb_true_iff in H. destruct H as [H | H].
  - left. intros ->. discriminate.
  - right. intros ->. rewrite Z.eqb_refl in H. discriminate.
Qed.

Lemma refused_false state (err : option error) :
  negb (isNil err) || negb (state =? PCAN_ERROR_OK) = false ->
  state = PCAN_ERROR_OK /\ err = None.
Proof.
  intros H. apply orb_false_iff in H. destruct H as [He Hs]. split.
  - apply Z.eqb_eq. destruct (state =? PCAN_ERROR_OK); [reflexivity | discriminate].
  - destruct err; [discriminate | reflexivity].
Qed.

(** C7, as the code has it.  For a path longer than the buffer limit,
    [StartTrace] never hands the path to the driver, and what it returns
    is settled by the steps that come before the path is looked at:
    - a file size above the accepted maximum gives the local error about
      the size, and no native call is made;
    - otherwise the trace configuration is set, by one native call; when
      that call fails, its answer is returned and nothing else is called;
    - when it succeeds and the size is not positive (zero, for the
      unsigned size of the source), the local error about the path is
      returned, after that one call;
    - when it succeeds and the size is positive, the trace file size is
      set, by a second native call; when that call fails its answer is
      returned, and when it succeeds the local error about the path is
      returned; the log then holds these two calls and no other.
    With the set-value entry point resolved [StartTrace] does return; and
    when the size is accepted and the set-up calls answer OK without an
    error, it returns the local error about the path. *)
Theorem StartTrace_long_path_is_not_forwarded p filePath maxFileSize w :
  len filePath > MAX_LENGHT_STRING_BUFFER ->
  (forall r w',
      StartTrace p filePath maxFileSize w = Returns r w' ->
      (maxFileSize > MAX_TRACE_FILE_SIZE_ACCEPTED /\
       r = (PCAN_ERROR_UNKNOWN, size_error) /\ w' = w) \/
      (maxFileSize <= MAX_TRACE_FILE_SIZE_ACCEPTED /\
       exists state err w1,
         SetParameter p PCAN_TRACE_CONFIGURE (trace_cfg maxFileSize) w =
         Returns (state, err) w1 /\
         glob w1 = glob w /\
         calls w1 = calls w ++ [configure_call p maxFileSize] /\
         ((refused state err /\ r = (state, err) /\ w' = w1) \/
          (state = PCAN_ERROR_OK /\ err = None /\ maxFileSize <= 0 /\
           r = (PCAN_ERROR_UNKNOWN, path_error) /\ w' = w1) \/
          (state = PCAN_ERROR_OK /\ err = None /\ maxFileSize > 0 /\
           exists state2 err2,
             SetValue p PCAN_TRACE_SIZE (le_bytes 4 maxFileSize) 4 w1 =
             Returns (state2, err2) w' /\
             glob w' = glob w /\
             calls w' = calls w ++ [configure_call p maxFileSize;
                                    size_call p maxFileSize] /\
             ((refused state2 err2 /\ r = (state2, err2)) \/
              (state2 = PCAN_ERROR_OK /\ err2 = None /\
               r = (PCAN_ERROR_UNKNOWN, path_error))))))) /\
  (pHandleSetValue (glob w) <> None ->
   exists r w', StartTrace p filePath maxFileSize w = Returns r w') /\
  (forall w1 w2,
      maxFileSize <= MAX_TRACE_FILE_SIZE_ACCEPTED ->
      SetParameter p PCAN_TRACE_CONFIGURE (trace_cfg maxFileSize) w =
        Returns (PCAN_ERROR_OK, None) w1 ->
      (if maxFileSize >? 0
       then SetValue p PCAN_TRACE_SIZE (le_bytes 4 maxFileSize) 4 w1 =
            Returns (PCAN_ERROR_OK, None) w2
       else w2 = w1) ->
      StartTrace p filePath maxFileSize w =
      Returns (PCAN_ERROR_UNKNOWN, path_error) w2).
Proof.
  intros Hlong.
  assert (Hgt : (len filePath >? MAX_LENGHT_STRING_BUFFER) = true)
    by (apply Z.gtb_gt; exact Hlong).
  unfold StartTrace, path_error, size_error, configure_call, size_call, trace_cfg.
  cbv zeta. rewrite Hgt. split; [|split]; cycle 2.
  { intros w1 w2 Hmax Hcfg Hsize.
    replace (maxFileSize >? MAX_TRACE_FILE_SIZE_ACCEPTED) with false
      by (symmetry; rewrite Z.gtb_ltb; apply Z.ltb_ge; exact Hmax).
    rewrite (bind_step _ _ _ _ _ Hcfg). cbn [isNil negb orb].
    rewrite Z.eqb_refl. cbn [negb].
    destruct (maxFileSize >? 0).
    - unfold bind at 1. unfold bind at 1. rewrite Hsize. cbn [isNil negb orb].
      rewrite Z.eqb_refl. reflexivity.
    - subst w2. reflexivity. }
  - intros r w'.
    destruct (maxFileSize >? MAX_TRACE_FILE_SIZE_ACCEPTED) eqn:Hmax.
    { unfold ret. intros H. inversion H; subst. left.
      apply Z.gtb_gt in Hmax. auto. }
    rewrite Z.gtb_ltb in Hmax. apply Z.ltb_ge in Hmax.
    intros H. right. split; [exact Hmax|].
    apply bind_Returns in H. destruct H as ([state err] & w1 & Hcfg & H).
    exists state, err, w1. split; [exact Hcfg|].
    unfold SetParameter in Hcfg. apply SetValue_inv in Hcfg.
    destruct Hcfg as [Hg1 Hc1].
    split; [exact Hg1|]. split; [exact Hc1|].
    destruct (negb (isNil err) || negb (state =? PCAN_ERROR_OK)) eqn:Hfail.
    { unfold ret in H. inversion H; subst. left.
      split; [apply refused_true; exact Hfail | split; reflexivity]. }
    right. destruct (refused_false _ _ Hfail) as [Hst He].
    apply bind_Returns in H. destruct H as (failed & w2 & Hsize & H).
    destruct (maxFileSize >? 0) eqn:Hsz.
    + right. apply Z.gtb_gt in Hsz.
      split; [exact Hst|]. split; [exact He|]. split; [exact Hsz|].
      apply bind_Returns in Hsize. destruct Hsize as ([state2 err2] & w3 & Hset & Hsize).
      assert (Hw : w' = w3 /\
                   ((refused state2 err2 /\ r = (state2, err2)) \/
                    (state2 = PCAN_ERROR_OK /\ err2 = None /\
                     r = (PCAN_ERROR_UNKNOWN,
                          Some (fmt_Errorf "filepath exceeds max length of %v"
                                           MAX_LENGHT_STRING_BUFFER))))).
      { destruct (negb (isNil err2) || negb (state2 =? PCAN_ERROR_OK)) eqn:Hfail2;
          unfold ret in Hsize; inversion Hsize; subst; unfold ret in H; inversion H; subst.
        - split; [reflexivity|]. left.
          split; [apply refused_true; exact Hfail2 | reflexivity].
        - split; [reflexivity|]. right.
          destruct (refused_false _ _ Hfail2) as [Hst2 He2].
          split; [exact Hst2|]. split; [exact He2 | reflexivity]. }
      destruct Hw as [-> Hr].
      exists state2, err2. split; [exact Hset|].
      apply SetValue_inv in Hset. destruct Hset as [Hg2 Hc2].
      split; [congruence|]. split; [|exact Hr].
      rewrite Hc2, Hc1, <- app_assoc. reflexivity.
    + left. rewrite Z.gtb_ltb in Hsz. apply Z.ltb_ge in Hsz.
      unfold ret in Hsize. inversion Hsize; subst.
      unfold ret in H. inversion H; subst. auto.
  - intros Hp.
    destruct (maxFileSize >? MAX_TRACE_FILE_SIZE_ACCEPTED); [unfold ret; eauto|].
    unfold SetParameter.
    destruct (SetValue_total p PCAN_TRACE_CONFIGURE
                (le_bytes sizeof_TPCANParameterValue
                   (if maxFileSize >? 0
                    then Z.lor (Z.lor (Z.lor TRACE_FILE_DATE TRACE_FILE_TIME)
                                      TRACE_FILE_OVERWRITE) TRACE_FILE_SEGMENTED
                    else Z.lor (Z.lor (Z.lor TRACE_FILE_DATE TRACE_FILE_TIME)
                                      TRACE_FILE_OVERWRITE) TRACE_FILE_SINGLE))
                (uint32 (Z.of_nat sizeof_TPCANParameterValue)) w Hp)
      as ([state err] & w1 & Hcfg).
    rewrite (bind_step _ _ _ _ _ Hcfg).
    destruct (negb (isNil err) || negb (state =? PCAN_ERROR_OK)); [unfold ret; eauto|].
    destruct (maxFileSize >? 0).
    + apply SetValue_inv in Hcfg.
      destruct (SetValue_total p PCAN_TRACE_SIZE (le_bytes 4 maxFileSize) 4 w1
                  (extends_resolved _ _ _ Hcfg Hp)) as ([state2 err2] & w2 & Hset).
      unfold bind at 1. unfold bind at 1. rewrite Hset.
      destruct (negb (isNil err2) || negb (state2 =? PCAN_ERROR_OK)); unfold ret; eauto.
    + unfold bind, ret. eauto.
Qed.

(** ** [LoadAPI] and [UnloadAPI] *)

(** Loading twice is a no-op. *)
Lemma LoadAPI_loaded w :
  apiLoaded (glob w) = true -> LoadAPI w = Returns None w.
Proof.
  intros H. unfold LoadAPI, bind, get_globals. rewrite H. reflexivity.
Qed.

(** Unloading what was never loaded dereferences the nil module. *)
Lemma UnloadAPI_nil w :
  pcanAPIHandle (glob w) = None -> exists w', UnloadAPI w = Panics w'.
Proof.
  intros H. unfold UnloadAPI, bind, get_globals, set_globals. rewrite H.
  eexists. reflexivity.
Qed.

Lemma UnloadAPI_inv w err w1 :
  UnloadAPI w = Returns err w1 ->
  unloaded (glob w1) /\ calls w1 = calls w ++ [EvRelease].
Proof.
  unfold UnloadAPI, bind, get_globals, set_globals. cbn [glob drv calls].
  destruct (pcanAPIHandle (glob w)) as [d|]; [|discriminate].
  unfold interact. cbn [glob drv calls].
  destruct (os_Release d (drv w)) as [e d']. intros H. inversion H; subst.
  cbn [glob calls]. split; [|reflexivity].
  unfold unloaded. cbn. repeat split.
Qed.

(** C8, as the code has it.  After [UnloadAPI] has run, none of the
    channel operations returns anything, neither a status nor an error:
    each of [Read], [Write], [Uninitialize], [Reset], [GetStatus],
    [GetValue], [SetValue], [GetParameter], [SetParameter] and
    [ReadFullBuffer] stops with a run-time panic at the call through the
    entry point, which is nil, before anything reaches the driver (the
    world, log included, is as [UnloadAPI] left it). *)
Theorem calls_after_UnloadAPI_panic w err w1 :
  UnloadAPI w = Returns err w1 ->
  forall p,
    Read p w1 = Panics w1 /\
    (forall msg, Write p msg w1 = Panics w1) /\
    Uninitialize p w1 = Panics w1 /\
    Reset p w1 = Panics w1 /\
    GetStatus p w1 = Panics w1 /\
    (forall param size, GetValue p param size w1 = Panics w1) /\
    (forall param buffer size, SetValue p param buffer size w1 = Panics w1) /\
    (forall param, GetParameter p param w1 = Panics w1) /\
    (forall param val, SetParameter p param val w1 = Panics w1) /\
    (forall fuel limit, ReadFullBuffer (S fuel) p limit w1 = Panics w1).
Proof.
  intros H p. apply UnloadAPI_inv in H.
  destruct H as [(_ & _ & HU & HRs & HG & HR & _ & HW & _ & _ & HGV & HSV & _) _].
  assert (Read p w1 = Panics w1) as HRead by (apply Read_nil; exact HR).
  repeat split; intros;
    unfold ReadFullBuffer, drain, GetParameter, SetParameter, Write, Uninitialize,
      Reset, GetStatus, GetValue, SetValue, bind, get_globals, Call;
    rewrite ?HRead, ?HU, ?HRs, ?HG, ?HW, ?HGV, ?HSV; reflexivity.
Qed.

End Properties.

(** * The functions at work on the scripted environment *)

(** Loading on the scripted environment opens the package. *)
Example LoadAPI_opens :
  LoadAPI (E := stub) (mkWorld (E := stub) (mkScript [] [] [] 0) initial_globals []) =
  Returns None
    (mkWorld (E := stub) (mkScript [] [] [] 0) opened_globals
       [EvLoadDLL "PCANBasic.dll"]).
Proof. reflexivity. Qed.

(** The buffer of a short path: bytes are copied at the index where a
    rune starts, so the second byte of a two-byte rune is left zero. *)
Example path_buffer_runes :
  firstn 5 (path_buffer (C := vendor) [65; 195; 164; 66]) = [65; 195; 0; 66; 0].
Proof. reflexivity. Qed.

(** The wait on the event at work: the event is signalled once, then the
    wait times out. *)
Example ReadWithTimeout_event_wait :
  ReadWithTimeout (C := vendor) (E := stub) 5 usb1 3
    (mkWorld (E := stub) (mkScript [] [0] [0; 258] 0) (with_events opened_globals) []) =
  Returns (32, None, None, None)
    (mkWorld (E := stub) (mkScript [] [] [] 0) (with_events opened_globals)
       [EvNow; EvRead 81; EvWait 0 3; EvRead 81; EvWait 0 3]).
Proof. reflexivity. Qed.



(** C2, at work: an unbounded wait, two frames queued after one fruitless
    turn; the first is returned and the second stays queued. *)
Lemma ReadWithTimeout_first_frame_witness :
  ReadWithTimeout (C := vendor) (E := stub) 5 usb1 (-1)
    (opened (mkScript ((32, zero_msg, zero_timestamp) :: frames [7; 8])
                      [0; 1000000] [] 0)) =
  Returns (0, Some (frame 7), Some (stamp 7), None)
    (mkWorld (E := stub) (mkScript (frames [8]) [] [] 0) opened_globals
       [EvNow; EvRead 81; EvNow; EvSleep 250000; EvRead 81]) /\
  (exists t', Some (stamp 7) = Some t') /\
  extends (E := stub)
    (mkWorld (E := stub) (mkScript (frames [7; 8]) [] [] 0) opened_globals
       [EvNow; EvRead 81; EvNow; EvSleep 250000])
    (mkWorld (E := stub) (mkScript (frames [8]) [] [] 0) opened_globals
       [EvNow; EvRead 81; EvNow; EvSleep 250000; EvRead 81])
    [EvRead 81].
Proof.
  eapply (@ReadWithTimeout_stops_at_first_frame vendor stub usb1 (-1) _ 0 _ 1%nat).
  - reflexivity.
  - eapply fruitless_S; [|apply fruitless_O].
    eapply waits_slept; [reflexivity | reflexivity | reflexivity | discriminate | reflexivity].
  - reflexivity.
  - lia.
Defined.

(** C3, the code at work on a negative timeout: nothing is queued, the
    events are off, and the clock reads 0 ms at entry and 4294967296 ms
    at the first look at the deadline.  The deadline is the entry time
    plus [INFINITE] = 4294967295 ms, not infinity, so the call returns
    the empty outcome. *)
Theorem ReadWithTimeout_negative_timeout_expires :
  ReadWithTimeout (C := vendor) (E := stub) 1 usb1 (-1)
    (opened (mkScript [] [0; 4294967296000000] [] 0)) =
  Returns (32, None, None, None)
    (mkWorld (E := stub) (mkScript [] [] [] 0) opened_globals
       [EvNow; EvRead 81; EvNow]).
Proof. reflexivity. Qed.

(** C4, at work: timeout 0 and one frame queued at the call. *)
Lemma ReadWithTimeout_zero_witness :
  ReadWithTimeout (C := vendor) (E := stub) 1 usb1 0
    (opened (mkScript (frames [7]) [] [] 0)) =
  Returns (0, Some (frame 7), Some (stamp 7), None)
    (mkWorld (E := stub) (mkScript [] [] [] 0) opened_globals [EvNow; EvRead 81]) /\
  exists evs,
    extends (E := stub) (opened (mkScript (frames [7]) [] [] 0))
      (mkWorld (E := stub) (mkScript [] [] [] 0) opened_globals [EvNow; EvRead 81])
      (EvNow :: EvRead 81 :: evs).
Proof.
  assert (H : ReadWithTimeout (C := vendor) (E := stub) 1 usb1 0
                (opened (mkScript (frames [7]) [] [] 0)) =
              Returns (0, Some (frame 7), Some (stamp 7), None)
                (mkWorld (E := stub) (mkScript [] [] [] 0) opened_globals
                   [EvNow; EvRead 81])).
  { eapply (proj2 (@ReadWithTimeout_zero_reads_once vendor stub)); reflexivity. }
  split; [exact H|].
  exact (proj1 (@ReadWithTimeout_zero_reads_once vendor stub) _ _ _ _ _ H).
Defined.

(** C5, at work: five frames queued, limit 3. *)
Lemma ReadFullBuffer_limit_witness :
  exists e w',
    ReadFullBuffer (C := vendor) (E := stub) 6 usb1 3
      (opened (mkScript (frames [1; 2; 3; 4; 5]) [] [] 0)) =
    Returns ([frame 1; frame 2; frame 3], [stamp 1; stamp 2; stamp 3], e) w' /\
    3 = Z.min 3 5 /\
    (3 <= 5 -> queued (C := vendor) (E := stub) usb1
                 [(frame 4, stamp 4); (frame 5, stamp 5)] w').
Proof.
  assert (Hq : queued (C := vendor) (E := stub) usb1
                 [(frame 1, stamp 1); (frame 2, stamp 2); (frame 3, stamp 3);
                  (frame 4, stamp 4); (frame 5, stamp 5)]
                 (opened (mkScript (frames [1; 2; 3; 4; 5]) [] [] 0))).
  { cbn [queued]. repeat (eexists; eexists; eexists; split; [reflexivity|]).
    eexists; eexists; reflexivity. }
  exact (proj1 (ReadFullBuffer_drains_in_order usb1 _ _ Hq) 3 6%nat
               eq_refl (le_n 6)).
Defined.

(** C6, at work on a read that finds a frame. *)
Lemma Read_pointers_witness :
  Read (C := vendor) (E := stub) usb1 (opened (mkScript (frames [1]) [] [] 0)) =
  Returns (0, Some (frame 1), Some (stamp 1), None)
    (mkWorld (E := stub) (mkScript [] [] [] 0) opened_globals [EvRead 81]) /\
  (Some (frame 1) = None <-> Some (stamp 1) = None).
Proof.
  split; [reflexivity|].
  eapply (proj1 (@Read_pointers_nil_together vendor stub) usb1
                (opened (mkScript (frames [1]) [] [] 0))).
  reflexivity.
Defined.

(** C7, the claim as worded fails: a path of 257 bytes is turned down
    with the local error, but the call that sets the trace configuration
    has reached the driver by then. *)
Lemma StartTrace_long_path_counterexample :
  StartTrace (C := vendor) (E := stub) usb1 (repeat 65 257) 0
    (opened (mkScript [] [] [] 0)) =
  Returns (65536, Some (fmt_Errorf "filepath exceeds max length of %v" 256))
    (mkWorld (E := stub) (mkScript [] [] [] 0) opened_globals
       [EvSetValue 81 22 [134; 0; 0; 0] 4]) /\
  filter is_native [EvSetValue 81 22 [134; 0; 0; 0] 4] =
    [EvSetValue 81 22 [134; 0; 0; 0] 4] /\
  calls (opened (mkScript [] [] [] 0)) = [].
Proof.
  split; [reflexivity|]. split; reflexivity.
Qed.

(** C7 as the code has it, at work on the same path, with a file size. *)
Lemma StartTrace_long_path_witness :
  len (repeat 65 257) > 256 /\
  exists r w',
    StartTrace (C := vendor) (E := stub) usb1 (repeat 65 257) 7
      (opened (mkScript [] [] [] 0)) = Returns r w'.
Proof.
  split; [reflexivity|].
  refine (proj1 (proj2 (@StartTrace_long_path_is_not_forwarded vendor stub usb1
                          (repeat 65 257) 7 (opened (mkScript [] [] [] 0)) _)) _).
  - reflexivity.
  - discriminate.
Defined.

(** C8, the claim as worded fails: after [UnloadAPI] a read returns
    nothing at all, it panics. *)
Lemma Read_after_UnloadAPI_counterexample :
  UnloadAPI (E := stub) (opened (mkScript (frames [1]) [] [] 0)) =
  Returns None
    (mkWorld (E := stub) (mkScript (frames [1]) [] [] 0) released_globals [EvRelease]) /\
  Read (C := vendor) (E := stub) usb1
    (mkWorld (E := stub) (mkScript (frames [1]) [] [] 0) released_globals [EvRelease]) =
  Panics
    (mkWorld (E := stub) (mkScript (frames [1]) [] [] 0) released_globals [EvRelease]) /\
  ~ exists r w',
      Read (C := vendor) (E := stub) usb1
        (mkWorld (E := stub) (mkScript (frames [1]) [] [] 0) released_globals [EvRelease]) =
      Returns r w'.
Proof.
  split; [reflexivity|]. split; [reflexivity|].
  intros (r & w' & H). discriminate H.
Qed.

(** C8 as the code has it, at work: a write after [UnloadAPI]. *)
Lemma calls_after_UnloadAPI_witness :
  Write (C := vendor) (E := stub) usb1 (frame 1)
    (mkWorld (E := stub) (mkScript [] [] [] 0) released_globals [EvRelease]) =
  Panics (mkWorld (E := stub) (mkScript [] [] [] 0) released_globals [EvRelease]).
Proof.
  refine (proj1 (proj2 (@calls_after_UnloadAPI_panic vendor stub
                          (opened (mkScript [] [] [] 0)) None _ _ usb1)) (frame 1)).
  reflexivity.
Defined.

(** C9, the claim as worded fails: with limit 1, a first read that
    reports bus-off ends the drain; it does not read on, and the frame
    behind it stays queued. *)
Lemma ReadFullBuffer_hard_error_counterexample :
  ReadFullBuffer (C := vendor) (E := stub) 5 usb1 1
    (opened (mkScript [(PCAN_ERROR_BUSOFF, zero_msg, zero_timestamp);
                       (0, frame 2, stamp 2)] [] [] 0)) =
  Returns ([zero_msg], [zero_timestamp], None)
    (mkWorld (E := stub) (mkScript (frames [2]) [] [] 0) opened_globals [EvRead 81]).
Proof. reflexivity. Qed.

(** C9 as the code has it, at work: without a limit the drain reads on
    after the read that reports bus-off. *)
Lemma ReadFullBuffer_status_witness :
  exists m t,
    Some zero_msg = Some m /\ Some zero_timestamp = Some t /\
    drain (C := vendor) (E := stub) 3 usb1 0 [] []
      (opened (mkScript [(PCAN_ERROR_BUSOFF, zero_msg, zero_timestamp);
                         (0, frame 2, stamp 2)] [] [] 0)) =
    (if negb (0 =? 0) && (len ([] ++ [m]) >=? 0)
     then Returns ([] ++ [m], [] ++ [t], None)
            (mkWorld (E := stub) (mkScript (frames [2]) [] [] 0) opened_globals
               [EvRead 81])
     else drain (C := vendor) (E := stub) 2 usb1 0 ([] ++ [m]) ([] ++ [t])
            (mkWorld (E := stub) (mkScript (frames [2]) [] [] 0) opened_globals
               [EvRead 81])) /\
    drain (C := vendor) (E := stub) 3 usb1 0 [] []
      (opened (mkScript [(PCAN_ERROR_BUSOFF, zero_msg, zero_timestamp);
                         (0, frame 2, stamp 2)] [] [] 0)) =
    drain (C := vendor) (E := stub) 2 usb1 0 ([] ++ [m]) ([] ++ [t])
      (mkWorld (E := stub) (mkScript (frames [2]) [] [] 0) opened_globals
         [EvRead 81]).
Proof.
  eapply (@ReadFullBuffer_appends_whatever_the_status vendor stub 2 usb1 0 [] []
            (opened (mkScript [(PCAN_ERROR_BUSOFF, zero_msg, zero_timestamp);
                               (0, frame 2, stamp 2)] [] [] 0))
            PCAN_ERROR_BUSOFF).
  - reflexivity.
  - discriminate.
Defined.

(** C10, at work: five frames queued, limit -3. *)
Lemma ReadFullBuffer_negative_limit_witness :
  exists t,
    Some (stamp 1) = Some t /\
    ReadFullBuffer (C := vendor) (E := stub) 10 usb1 (-3)
      (opened (mkScript (frames [1; 2; 3; 4; 5]) [] [] 0)) =
    Returns ([frame 1], [t], None)
      (mkWorld (E := stub) (mkScript (frames [2; 3; 4; 5]) [] [] 0) opened_globals
         [EvRead 81]).
Proof.
  eapply (@ReadFullBuffer_negative_limit_takes_one vendor stub 9 usb1 (-3)
            (opened (mkScript (frames [1; 2; 3; 4; 5]) [] [] 0)) 0).
  - reflexivity.
  - reflexivity.
Defined.

(** * Properties of the further code *)

Section MoreProperties.

Context {C : Consts} {E : Env} {K : ChannelConsts}.

(** ** [syscallErr] *)

(** X1.  [syscallErr] hands back nil exactly for no error value, for the
    value 0 and for the insufficient-buffer value 122; every other value
    [n] becomes the error with the text of [n]. *)
Theorem syscallErr_nil_iff errno :
  (syscallErr errno = None <->
   errno = None \/ errno = Some 0 \/ errno = Some ERROR_INSUFFICIENT_BUFFER) /\
  (forall err, syscallErr errno = Some err ->
     exists n, errno = Some n /\ err = Errno_text n /\
               n <> 0 /\ n <> ERROR_INSUFFICIENT_BUFFER).
Proof.
  unfold syscallErr. destruct errno as [n|].
  - destruct (n =? 0) eqn:H0; cbn [negb].
    + apply Z.eqb_eq in H0. subst n. split.
      * split; auto.
      * discriminate.
    + apply Z.eqb_neq in H0.
      destruct (n =? ERROR_INSUFFICIENT_BUFFER) eqn:H1.
      * apply Z.eqb_eq in H1. subst n. split; [split; auto | discriminate].
      * apply Z.eqb_neq in H1. split.
        -- split; [discriminate|].
           intros [H|[H|H]]; inversion H; contradiction.
        -- intros err H. inversion H. exists n. auto.
  - split; [split; auto | discriminate].
Qed.

(** ** [LoadAPI] and [UnloadAPI] *)

Lemma loaded_flag_resolved (g : Globals) :
  negb (isNil (pHandleInitialize g)) && negb (isNil (pHandleInitializeFD g))
  && negb (isNil (pHandleReset g)) && negb (isNil (pHandleGetStatus g))
  && negb (isNil (pHandleRead g)) && negb (isNil (pHandleReadFD g))
  && negb (isNil (pHandleWrite g)) && negb (isNil (pHandleWriteFD g))
  && negb (isNil (pHandleFilterMessages g)) && negb (isNil (pHandleGetValue g))
  && negb (isNil (pHandleSetValue g)) && negb (isNil (pHandleGetErrorText g))
  && negb (isNil (pHandleLookUpChannel g)) && negb (isNil (pHandleUninitialize g)) = true ->
  resolved g.
Proof.
  intros H.
  repeat (apply andb_prop in H; destruct H as [H ?]).
  unfold resolved.
  repeat match goal with
         | Hx : negb (isNil ?x) = true |- _ =>
             assert (x <> None) by (destruct x; [discriminate | discriminate Hx]);
             clear Hx
         end.
  tauto.
Qed.

(** The ways [LoadAPI] can go. *)
Lemma LoadAPI_cases w :
  exists r w', LoadAPI w = Returns r w' /\
    ((apiLoaded (glob w) = true /\ r = None /\ w' = w) \/
     (apiLoaded (glob w) = false /\ String.eqb GOOS "windows" = false /\
      r <> None /\ w' = w) \/
     (apiLoaded (glob w) = false /\ String.eqb GOOS "windows" = true /\
      calls w' = calls w ++ [EvLoadDLL "PCANBasic.dll"] /\
      hasEvents (glob w') = hasEvents (glob w) /\
      ((apiLoaded (glob w') = true /\ resolved (glob w') /\ r = None /\
        pcanAPIHandle (glob w') <> None) \/
       (apiLoaded (glob w') = false /\ r <> None) \/
       (apiLoaded (glob w') = false /\ r = None /\ pcanAPIHandle (glob w') = None)))).
Proof.
  unfold LoadAPI, bind, get_globals.
  destruct (apiLoaded (glob w)) eqn:Hl.
  { exists None, w. split; [reflexivity|]. left. auto. }
  destruct (String.eqb GOOS "windows") eqn:Hos; cbn [negb].
  2:{ eexists _, w. split; [reflexivity|]. right. left.
      repeat split; auto. discriminate. }
  unfold interact.
  destruct (os_LoadDLL "PCANBasic.dll" (drv w)) as [[h err] d].
  destruct err as [e|]; [|destruct h as [dll|]].
  - eexists _, _. split; [reflexivity|]. right. right.
    cbn [glob calls apiLoaded hasEvents]. repeat split; auto.
    right. left. split; [reflexivity | discriminate].
  - cbn [set_globals glob drv calls ret].
    match goal with
    | |- context [if negb ?b then _ else _] => destruct b eqn:Hb
    end; cbn [negb].
    + eexists _, _. split; [reflexivity|]. right. right.
      split; [reflexivity|]. split; [reflexivity|].
      split; [reflexivity|]. split; [reflexivity|]. left.
      split; [reflexivity|]. split; [|split; [reflexivity | discriminate]].
      apply loaded_flag_resolved. exact Hb.
    + eexists _, _. split; [reflexivity|]. right. right.
      cbn [glob calls apiLoaded hasEvents]. repeat split; auto.
      right. left. split; [reflexivity | discriminate].
  - eexists _, _. split; [reflexivity|]. right. right.
    cbn [glob calls apiLoaded hasEvents pcanAPIHandle]. repeat split; auto.
Qed.

(** X2.  [LoadAPI] always returns, it never panics.  When it returns an
    error the flag [apiLoaded] is not set; on another operating system
    than windows, and not yet loaded, it returns an error and touches
    nothing; it keeps the flag truthful and leaves [hasEvents] alone. *)
Theorem LoadAPI_error_leaves_unloaded w :
  exists r w',
    LoadAPI w = Returns r w' /\
    (r <> None -> apiLoaded (glob w') = false) /\
    (apiLoaded (glob w) = false -> String.eqb GOOS "windows" = false ->
     r <> None /\ w' = w) /\
    (coherent (glob w) -> coherent (glob w')) /\
    hasEvents (glob w') = hasEvents (glob w).
Proof.
  destruct (LoadAPI_cases w) as (r & w' & Hrun & Hcases).
  exists r, w'. split; [exact Hrun|].
  destruct Hcases as [(Hl & -> & ->)
                     |[(Hl & Hos & Hr & ->)
                      |(Hl & Hos & Hlog & Hev &
                        [(Hl' & Hres & -> & Hh)|[(Hl' & Hr)|(Hl' & -> & Hh)]])]].
  - split; [intros H; contradiction|]. split; [intros H; congruence|].
    split; [auto | reflexivity].
  - split; [intros _; exact Hl|]. split; [auto|]. split; [auto | reflexivity].
  - split; [intros H; contradiction|]. split; [intros _ H; congruence|].
    split; [intros _ _; exact Hres | exact Hev].
  - split; [intros _; exact Hl'|]. split; [intros _ H; congruence|].
    split; [intros _ H; congruence | exact Hev].
  - split; [intros H; contradiction|]. split; [intros _ H; congruence|].
    split; [intros _ H; congruence | exact Hev].
Qed.

Lemma Call_total {R} (pr : option Proc) ev (f : dstate -> R * dstate) w :
  pr <> None -> exists r w', Call pr ev f w = Returns r w' /\ extends w w' [ev].
Proof.
  intros Hp. unfold Call. destruct pr; [|contradiction].
  destruct (interact_total ev f w) as (r & w' & Hi).
  exists r, w'. split; [exact Hi | exact (interact_extends _ _ _ _ _ Hi)].
Qed.

(** With its entry point resolved each pass-through call returns, after
    exactly one call of the driver. *)
Lemma passthrough_return w :
  resolved (glob w) ->
  forall p,
    (exists r w', Read p w = Returns r w' /\ extends w w' [EvRead (Handle p)]) /\
    (forall msg, exists r w',
        Write p msg w = Returns r w' /\ extends w w' [EvWrite (Handle p) msg]) /\
    (exists r w', Uninitialize p w = Returns r w' /\
                  extends w w' [EvUninitialize (Handle p)]) /\
    (exists r w', Reset p w = Returns r w' /\ extends w w' [EvReset (Handle p)]) /\
    (exists r w', GetStatus p w = Returns r w' /\
                  extends w w' [EvGetStatus (Handle p)]) /\
    (forall param size, exists r w',
        GetValue p param size w = Returns r w' /\
        extends w w' [EvGetValue (Handle p) param size]) /\
    (forall param buffer size, exists r w',
        SetValue p param buffer size w = Returns r w' /\
        extends w w' [EvSetValue (Handle p) param buffer size]).
Proof.
  intros (_ & _ & HU & HRs & HG & HR & _ & HW & _ & _ & HGV & HSV & _) p.
  repeat split; intros.
  - destruct (Call_total _ (EvRead (Handle p)) (CAN_Read (Handle p)) w HR)
      as ([[[r msg] ts] errno] & w' & Hc & He).
    unfold Read, bind, get_globals. rewrite Hc.
    destruct (as_TPCANStatus r =? PCAN_ERROR_QRCVEMPTY); unfold ret; eauto.
  - destruct (Call_total _ (EvWrite (Handle p) msg) (CAN_Write (Handle p) msg) w HW)
      as ([r errno] & w' & Hc & He).
    unfold Write, bind, get_globals. rewrite Hc. unfold ret. eauto.
  - destruct (Call_total _ (EvUninitialize (Handle p)) (CAN_Uninitialize (Handle p)) w HU)
      as ([r errno] & w' & Hc & He).
    unfold Uninitialize, bind, get_globals. rewrite Hc. unfold ret. eauto.
  - destruct (Call_total _ (EvReset (Handle p)) (CAN_Reset (Handle p)) w HRs)
      as ([r errno] & w' & Hc & He).
    unfold Reset, bind, get_globals. rewrite Hc. unfold ret. eauto.
  - destruct (Call_total _ (EvGetStatus (Handle p)) (CAN_GetStatus (Handle p)) w HG)
      as ([r errno] & w' & Hc & He).
    unfold GetStatus, bind, get_globals. rewrite Hc. unfold ret. eauto.
  - destruct (Call_total _ (EvGetValue (Handle p) param size)
                (CAN_GetValue (Handle p) param size) w HGV)
      as ([[r buffer] errno] & w' & Hc & He).
    unfold GetValue, bind, get_globals. rewrite Hc. unfold ret. eauto.
  - destruct (Call_total _ (EvSetValue (Handle p) param buffer size)
                (CAN_SetValue (Handle p) param buffer size) w HSV)
      as ([r errno] & w' & Hc & He).
    unfold SetValue, bind, get_globals. rewrite Hc. unfold ret. eauto.
Qed.

(** X3.  Started from package variables whose flag is truthful (the
    initial ones are), a [LoadAPI] that leaves the flag set has returned
    nil and every entry point is resolved: from then on [Read], [Write],
    [Uninitialize], [Reset], [GetStatus], [GetValue] and [SetValue] return
    instead of panicking, each after exactly one call of the driver. *)
Theorem LoadAPI_success_resolves w r w' :
  coherent (glob w) ->
  LoadAPI w = Returns r w' ->
  apiLoaded (glob w') = true ->
  r = None /\ resolved (glob w') /\
  forall p,
    (exists res w'', Read p w' = Returns res w'' /\ extends w' w'' [EvRead (Handle p)]) /\
    (forall msg, exists res w'',
        Write p msg w' = Returns res w'' /\ extends w' w'' [EvWrite (Handle p) msg]) /\
    (exists res w'', Uninitialize p w' = Returns res w'' /\
                     extends w' w'' [EvUninitialize (Handle p)]) /\
    (forall param buffer size, exists res w'',
        SetValue p param buffer size w' = Returns res w'' /\
        extends w' w'' [EvSetValue (Handle p) param buffer size]).
Proof.
  intros Hco Hrun Hl.
  destruct (LoadAPI_cases w) as (r0 & w0 & Hrun0 & Hcases).
  rewrite Hrun in Hrun0. inversion Hrun0; subst r0 w0. clear Hrun0.
  assert (Hboth : r = None /\ resolved (glob w')).
  { destruct Hcases as [(Hl0 & -> & ->)
                       |[(Hl0 & Hos & Hr & ->)
                        |(Hl0 & Hos & Hlog & Hev &
                          [(Hl' & Hres & -> & Hh)|[(Hl' & Hr)|(Hl' & -> & Hh)]])]];
      try congruence; auto. }
  destruct Hboth as [Hr Hres]. split; [exact Hr|]. split; [exact Hres|].
  intros p.
  destruct (passthrough_return w' Hres p) as (HRd & HWr & HUn & _ & _ & _ & HSv).
  auto.
Qed.

(** X4.  [UnloadAPI] keeps the module handle it releases: a second
    [UnloadAPI] does not panic and is no no-op, it releases the same
    module once more. *)
Theorem UnloadAPI_twice_releases_twice w err w1 :
  UnloadAPI w = Returns err w1 ->
  pcanAPIHandle (glob w1) = pcanAPIHandle (glob w) /\
  pcanAPIHandle (glob w1) <> None /\
  exists err2 w2,
    UnloadAPI w1 = Returns err2 w2 /\
    calls w2 = calls w ++ [EvRelease; EvRelease].
Proof.
  unfold UnloadAPI, bind, get_globals, set_globals. cbn [glob drv calls].
  destruct (pcanAPIHandle (glob w)) as [d|] eqn:Hh; [|discriminate].
  unfold interact. cbn [glob drv calls].
  destruct (os_Release d (drv w)) as [e d1] eqn:Hrel. intros H.
  inversion H; subst. cbn [glob drv calls pcanAPIHandle hasEvents].
  split; [reflexivity|]. split; [discriminate|].
  destruct (os_Release d d1) as [e2 d2].
  eexists _, _. split; [reflexivity|].
  cbn [calls]. rewrite <- app_assoc. reflexivity.
Qed.

(** X5.  Loading again after [UnloadAPI] brings the operations back:
    [LoadAPI] does not take the short cut, it loads the module anew, and
    when it leaves the flag set [Read] returns again. *)
Theorem LoadAPI_after_UnloadAPI w err w1 :
  UnloadAPI w = Returns err w1 ->
  String.eqb GOOS "windows" = true ->
  exists r w2,
    LoadAPI w1 = Returns r w2 /\
    calls w2 = calls w ++ [EvRelease; EvLoadDLL "PCANBasic.dll"] /\
    (apiLoaded (glob w2) = true ->
     r = None /\
     forall p, exists res w3, Read p w2 = Returns res w3).
Proof.
  intros Hun Hos. apply UnloadAPI_inv in Hun.
  destruct Hun as [Hunl Hlog].
  assert (Hl : apiLoaded (glob w1) = false) by (unfold unloaded in Hunl; tauto).
  destruct (LoadAPI_cases w1) as (r & w2 & Hrun & Hcases).
  exists r, w2. split; [exact Hrun|].
  destruct Hcases as [(Hl0 & _)
                     |[(_ & Hos' & _)
                      |(_ & _ & Hlog2 & _ & Hend)]]; try congruence.
  split.
  - rewrite Hlog2, Hlog, <- app_assoc. reflexivity.
  - intros Hl2.
    destruct Hend as [(_ & Hres & -> & _)|[(Hl' & _)|(Hl' & _)]]; try congruence.
    split; [reflexivity|]. intros p.
    destruct (passthrough_return w2 Hres p) as ((res & w3 & HR & _) & _).
    eauto.
Qed.

(** ** More on [ReadWithTimeout] *)

Lemma receive_status fuel : forall p tU eT st0 t0 e0 w st m t e w',
  receive fuel p tU eT (st0, None, t0, e0) w = Returns (st, m, t, e) w' ->
  (m = None <-> st = PCAN_ERROR_QRCVEMPTY).
Proof.
  induction fuel as [|fuel IH]; intros p tU eT st0 t0 e0 w st m t e w' H.
  - discriminate.
  - apply receive_turn in H.
    destruct H as (st1 & m1 & t1 & e1 & w1 & HR & [(m' & Hm & Hr & _)|(Hst & Hm & Ht & Hrest)]).
    + inversion Hr; subst.
      destruct (Read_frame_status _ _ _ _ _ _ _ HR) as [Hne _].
      apply Z.eqb_neq in Hne. split; [discriminate | contradiction].
    + destruct Hrest as [(_ & val & errWait & w2 & _ & [(_ & Hrec)|(_ & Hr & _)])
                        |(_ & now & w2 & _ & [(_ & Hr & _)|(_ & w3 & _ & Hrec)])].
      * eapply IH. exact Hrec.
      * inversion Hr; subst. tauto.
      * inversion Hr; subst. tauto.
      * eapply IH. exact Hrec.
Qed.

(** X6.  Whatever [ReadWithTimeout] returns, its message is nil exactly
    when its status is queue-empty: a caller may test either. *)
Theorem ReadWithTimeout_nil_iff_queue_empty fuel p timeout w st m t e w' :
  ReadWithTimeout fuel p timeout w = Returns (st, m, t, e) w' ->
  (m = None <-> st = PCAN_ERROR_QRCVEMPTY).
Proof.
  intros H. destruct (now_ms_total w) as (now & w0 & HN).
  rewrite (ReadWithTimeout_unfold _ _ _ _ _ _ HN) in H. cbv zeta in H.
  eapply receive_status. exact H.
Qed.

Lemma int64_small z : - 2 ^ 63 <= z < 2 ^ 63 -> int64 z = z.
Proof.
  intros H. unfold int64. rewrite Z.mod_small; lia.
Qed.

Lemma receive_polls_to_deadline fuel : forall p tU eT st0 t0 e0 w st t e w',
  hasEvents (glob w) = false ->
  receive fuel p tU eT (st0, None, t0, e0) w = Returns (st, None, t, e) w' ->
  exists w2 now, now_ms w2 = Returns now w' /\ now > eT.
Proof.
  induction fuel as [|fuel IH]; intros p tU eT st0 t0 e0 w st t e w' Hev H.
  - discriminate.
  - apply receive_turn in H.
    destruct H as (st1 & m1 & t1 & e1 & w1 & HR & [(m' & Hm & Hr & _)|(Hst & Hm & Ht & Hrest)]).
    + subst m1. discriminate.
    + destruct (Read_inv _ _ _ _ _ _ _ HR) as [[Hg1 _] _].
      destruct Hrest as [(Hev1 & _)
                        |(_ & now & w2 & HN & [(Hgt & Hr & Hw)|(_ & w3 & HS & Hrec)])].
      * congruence.
      * subst w'. eauto.
      * eapply IH; [|exact Hrec].
        apply now_ms_extends in HN. apply Sleep_extends in HS.
        destruct HN as [Hg2 _]. destruct HS as [Hg3 _]. congruence.
Qed.

(** X7.  With the events off (polling), [ReadWithTimeout] does not give up
    early: whenever it returns without a message, the last thing it did was
    read the clock, and that reading was past the deadline it computed at
    entry; when that sum did not overflow, more than [timeout]
    milliseconds lie between the two readings. *)
Theorem ReadWithTimeout_polls_to_deadline fuel p timeout w start w0 st t e w' :
  hasEvents (glob w) = false ->
  now_ms w = Returns start w0 ->
  ReadWithTimeout fuel p timeout w = Returns (st, None, t, e) w' ->
  exists w2 now,
    now_ms w2 = Returns now w' /\
    now > int64 (start + int64 (if timeout <? 0 then INFINITE else timeout)) /\
    (0 <= timeout < 2 ^ 63 -> - 2 ^ 63 <= start + timeout < 2 ^ 63 ->
     now - start > timeout).
Proof.
  intros Hev HN H.
  rewrite (ReadWithTimeout_unfold _ _ _ _ _ _ HN) in H. cbv zeta in H.
  apply receive_polls_to_deadline in H.
  - destruct H as (w2 & now & HN2 & Hgt). exists w2, now.
    split; [exact HN2|]. split; [exact Hgt|].
    intros Hpos Hrange.
    replace (timeout <? 0) with false in Hgt by (symmetry; apply Z.ltb_ge; lia).
    rewrite (int64_small timeout) in Hgt by lia.
    rewrite int64_small in Hgt by lia. lia.
  - apply now_ms_extends in HN. destruct HN as [Hg _]. congruence.
Qed.

Lemma receive_crossings fuel : forall p tU eT st0 t0 e0 w r w',
  receive fuel p tU eT (st0, None, t0, e0) w = Returns r w' ->
  exists evs,
    extends w w' evs /\
    Forall (fun ev =>
              ev = EvRead (Handle p) \/
              (hasEvents (glob w) = true /\ ev = EvWait (recvEvent p) tU) \/
              (hasEvents (glob w) = false /\
               (ev = EvNow \/ ev = EvSleep (250 * Microsecond)))) evs.
Proof.
  induction fuel as [|fuel IH]; intros p tU eT st0 t0 e0 w r w' H.
  - discriminate.
  - apply receive_turn in H.
    destruct H as (st1 & m1 & t1 & e1 & w1 & HR & Hcases).
    destruct (Read_inv _ _ _ _ _ _ _ HR) as [Hext _].
    assert (Hg1 : glob w1 = glob w) by apply Hext.
    destruct Hcases as [(m' & Hm & Hr & Hw)|(Hst & Hm & Ht & Hrest)].
    + subst w'. eexists. split; [exact Hext|]. constructor; [auto | constructor].
    + destruct Hrest as [(Hev & val & errWait & w2 & HW & [(_ & Hrec)|(_ & Hr & Hw)])
                        |(Hev & now & w2 & HN & [(_ & Hr & Hw)|(_ & w3 & HS & Hrec)])];
        rewrite Hg1 in Hev.
      * apply Wait_extends in HW. apply IH in Hrec.
        destruct Hrec as (evs & Hrec & Hall).
        eexists. split.
        -- exact (extends_trans _ _ _ _ _ (extends_trans _ _ _ _ _ Hext HW) Hrec).
        -- assert (Hg2 : glob w2 = glob w) by (destruct HW as [-> _]; exact Hg1).
           rewrite Hg2 in Hall.
           cbn [app]. constructor; [auto|]. constructor; [auto | exact Hall].
      * subst w'. apply Wait_extends in HW.
        eexists. split; [exact (extends_trans _ _ _ _ _ Hext HW)|].
        cbn [app]. constructor; [auto|]. constructor; [auto | constructor].
      * subst w'. apply now_ms_extends in HN.
        eexists. split; [exact (extends_trans _ _ _ _ _ Hext HN)|].
        cbn [app]. constructor; [auto|]. constructor; [auto | constructor].
      * apply now_ms_extends in HN. apply Sleep_extends in HS.
        apply IH in Hrec. destruct Hrec as (evs & Hrec & Hall).
        eexists. split.
        -- exact (extends_trans _ _ _ _ _
                    (extends_trans _ _ _ _ _ (extends_trans _ _ _ _ _ Hext HN) HS) Hrec).
        -- assert (Hg3 : glob w3 = glob w).
           { destruct HN as [Hg2 _]. destruct HS as [Hg3 _]. congruence. }
           rewrite Hg3 in Hall.
           cbn [app]. constructor; [auto|]. constructor; [auto|].
           constructor; [auto | exact Hall].
Qed.

(** X8.  What [ReadWithTimeout] does at the boundary: it reads the clock
    once at entry and never changes the package variables; after that,
    with the events on it only reads this channel and waits on the
    channel's event, every wait with the whole timeout (not with what is
    left of it) and without looking at the clock again; with the events
    off it only reads this channel, reads the clock and sleeps 250
    microseconds, and never waits on an event. *)
Theorem ReadWithTimeout_crossings fuel p timeout w r w' :
  ReadWithTimeout fuel p timeout w = Returns r w' ->
  exists evs,
    glob w' = glob w /\
    calls w' = calls w ++ EvNow :: evs /\
    Forall (fun ev =>
              ev = EvRead (Handle p) \/
              (hasEvents (glob w) = true /\
               ev = EvWait (recvEvent p)
                           (uint32 (if timeout <? 0 then INFINITE else timeout))) \/
              (hasEvents (glob w) = false /\
               (ev = EvNow \/ ev = EvSleep 250000))) evs.
Proof.
  intros H. destruct (now_ms_total w) as (now & w0 & HN).
  rewrite (ReadWithTimeout_unfold _ _ _ _ _ _ HN) in H. cbv zeta in H.
  apply receive_crossings in H. destruct H as (evs & [Hg Hl] & Hall).
  apply now_ms_extends in HN. destruct HN as [Hg0 Hl0].
  exists evs. split; [congruence|]. split.
  - rewrite Hl, Hl0, <- app_assoc. reflexivity.
  - rewrite Hg0 in Hall. exact Hall.
Qed.

(** X9.  On the polling path the empty outcome carries the platform
    error of the last read: when, after any number of fruitless turns, a
    read reports queue-empty together with an error and the clock is then
    past the deadline, [ReadWithTimeout] returns the queue-empty status,
    nil pointers and that error. *)
Theorem ReadWithTimeout_hands_read_error_through
        p timeout w now w0 n w1 err w2 now' w3 :
  now_ms w = Returns now w0 ->
  fruitless p (uint32 (if timeout <? 0 then INFINITE else timeout))
            (int64 (now + int64 (if timeout <? 0 then INFINITE else timeout)))
            n w0 w1 ->
  Read p w1 = Returns (PCAN_ERROR_QRCVEMPTY, None, None, err) w2 ->
  hasEvents (glob w2) = false ->
  now_ms w2 = Returns now' w3 ->
  now' > int64 (now + int64 (if timeout <? 0 then INFINITE else timeout)) ->
  forall fuel, (n < fuel)%nat ->
    ReadWithTimeout fuel p timeout w =
    Returns (PCAN_ERROR_QRCVEMPTY, None, None, err) w3.
Proof.
  intros HN Hturns HR Hev HN' Hgt fuel Hfuel.
  rewrite (ReadWithTimeout_unfold _ _ _ _ _ _ HN). cbv zeta.
  destruct (receive_fruitless _ _ _ _ _ _ Hturns PCAN_ERROR_UNKNOWN None None)
    as (st1 & t1 & e1 & Hrun).
  replace fuel with (n + S (fuel - S n))%nat by lia.
  rewrite Hrun. apply receive_deadline.
  eapply deadline_clock; eassumption.
Qed.

Lemma Wait_error_iff h ms w val errWait w' :
  WaitForSingleObject h ms w = Returns (val, errWait) w' ->
  (errWait <> None <-> val = WAIT_FAILED).
Proof.
  unfold WaitForSingleObject. intros H. apply bind_Returns in H.
  destruct H as ([r0 e1] & w1 & _ & H2).
  destruct (uint32 r0 =? 4294967295) eqn:Hq; unfold ret in H2; inversion H2; subst.
  - apply Z.eqb_eq in Hq. split; [intros _; exact Hq | intros _; discriminate].
  - apply Z.eqb_neq in Hq. split; [intros H; contradiction | intros H; contradiction].
Qed.

(** X10.  On the event path a wait that is not answered by the signal
    ends [ReadWithTimeout] with the queue-empty status and nil pointers,
    whatever the wait returned; the error of the read before it is
    dropped, and the error returned is the wait's, which is set exactly
    when the wait failed. *)
Theorem ReadWithTimeout_wait_ends
        p timeout w now w0 n w1 err w2 val errWait w3 :
  now_ms w = Returns now w0 ->
  fruitless p (uint32 (if timeout <? 0 then INFINITE else timeout))
            (int64 (now + int64 (if timeout <? 0 then INFINITE else timeout)))
            n w0 w1 ->
  Read p w1 = Returns (PCAN_ERROR_QRCVEMPTY, None, None, err) w2 ->
  hasEvents (glob w2) = true ->
  WaitForSingleObject (recvEvent p)
                      (uint32 (if timeout <? 0 then INFINITE else timeout)) w2 =
    Returns (val, errWait) w3 ->
  val <> WAIT_OBJECT_0 ->
  (errWait <> None <-> val = WAIT_FAILED) /\
  forall fuel, (n < fuel)%nat ->
    ReadWithTimeout fuel p timeout w =
    Returns (PCAN_ERROR_QRCVEMPTY, None, None, errWait) w3.
Proof.
  intros HN Hturns HR Hev HW Hval.
  split; [exact (Wait_error_iff _ _ _ _ _ _ HW)|].
  intros fuel Hfuel.
  rewrite (ReadWithTimeout_unfold _ _ _ _ _ _ HN). cbv zeta.
  destruct (receive_fruitless _ _ _ _ _ _ Hturns PCAN_ERROR_UNKNOWN None None)
    as (st1 & t1 & e1 & Hrun).
  replace fuel with (n + S (fuel - S n))%nat by lia.
  rewrite Hrun. cbn [receive].
  rewrite (bind_step _ _ _ _ _ HR), Z.eqb_refl.
  unfold bind at 1, get_globals at 1. rewrite Hev.
  rewrite (bind_step _ _ _ _ _ HW).
  replace (val =? WAIT_OBJECT_0) with false by (symmetry; apply Z.eqb_neq; exact Hval).
  destruct (val =? WAIT_FAILED); [reflexivity|].
  destruct (val =? WAIT_TIMEOUT); reflexivity.
Qed.

(** ** More on [ReadFullBuffer] *)

Lemma drain_shape fuel : forall p limit msgs tss w ms ts e w',
  drain fuel p limit msgs tss w = Returns (ms, ts, e) w' ->
  exists am at_ k,
    ms = msgs ++ am /\ ts = tss ++ at_ /\ length am = length at_ /\
    glob w' = glob w /\
    calls w' = calls w ++ repeat (EvRead (Handle p)) k /\
    (k = S (length am) \/ (k = length am /\ limit <> 0 /\ len ms >= limit)) /\
    (limit <> 0 -> len ms <= Z.max limit (len msgs + 1)).
Proof.
  induction fuel as [|fuel IH]; intros p limit msgs tss w ms ts e w' H.
  - discriminate.
  - cbn [drain] in H. apply bind_Returns in H.
    destruct H as ([[[st om] ot] e1] & w1 & HR & H).
    destruct (Read_inv _ _ _ _ _ _ _ HR) as [[Hg1 Hl1] [(Hst & -> & ->)|(Hst & m & t & -> & ->)]].
    + subst st. rewrite Z.eqb_refl in H. unfold ret in H. inversion H; subst.
      exists [], [], 1%nat. rewrite !app_nil_r.
      repeat split; auto. lia.
    + apply Z.eqb_neq in Hst. rewrite Hst in H.
      destruct (negb (limit =? 0) && (len (msgs ++ [m]) >=? limit)) eqn:Hstop.
      * unfold ret in H. inversion H; subst.
        apply andb_prop in Hstop. destruct Hstop as [Hnz Hge].
        apply negb_true_iff in Hnz. apply Z.eqb_neq in Hnz.
        rewrite Z.geb_leb in Hge. apply Z.leb_le in Hge.
        exists [m], [t], 1%nat.
        repeat split; auto.
        -- right. repeat split; auto. lia.
        -- intros _. rewrite len_app_one. lia.
      * apply IH in H.
        destruct H as (am & at_ & k & -> & -> & Hlen & Hg & Hl & Hk & Hb).
        exists (m :: am), (t :: at_), (S k).
        rewrite <- !app_assoc. cbn [app length].
        split; [reflexivity|]. split; [reflexivity|]. split; [lia|].
        split; [congruence|]. split.
        { rewrite Hl, Hl1, <- app_assoc. reflexivity. }
        split.
        { rewrite <- app_assoc in Hk. cbn [app] in Hk.
          destruct Hk as [->|(-> & Hnz & Hge)]; [left; reflexivity|].
          right. auto. }
        intros Hnz. specialize (Hb Hnz).
        rewrite <- app_assoc in Hb. cbn [app] in Hb.
        rewrite len_app_one in Hb, Hstop.
        apply andb_false_iff in Hstop. destruct Hstop as [Hz|Hlt].
        { apply negb_false_iff in Hz. apply Z.eqb_eq in Hz. contradiction. }
        rewrite Z.geb_leb in Hlt. apply Z.leb_gt in Hlt. lia.
Qed.

(** X11.  Whatever the driver does, the two lists [ReadFullBuffer]
    returns have the same length, and with a limit other than zero it
    never returns more messages than the limit (than one, for a limit
    below one). *)
Theorem ReadFullBuffer_pairs_within_limit fuel p limit w ms ts e w' :
  ReadFullBuffer fuel p limit w = Returns (ms, ts, e) w' ->
  length ms = length ts /\
  (limit <> 0 -> len ms <= Z.max limit 1).
Proof.
  unfold ReadFullBuffer. intros H. apply drain_shape in H.
  destruct H as (am & at_ & k & -> & -> & Hlen & _ & _ & _ & Hb).
  cbn [app] in *. split; [exact Hlen|]. exact Hb.
Qed.

(** X12.  The only calls [ReadFullBuffer] makes are reads of this
    channel, and it never changes the package variables.  It makes one
    read more than it returns messages when it ends on queue-empty, and
    exactly as many when the limit stops it; without a limit it is always
    one more. *)
Theorem ReadFullBuffer_read_count fuel p limit w ms ts e w' :
  ReadFullBuffer fuel p limit w = Returns (ms, ts, e) w' ->
  glob w' = glob w /\
  exists k,
    calls w' = calls w ++ repeat (EvRead (Handle p)) k /\
    (k = S (length ms) \/ (k = length ms /\ limit <> 0 /\ len ms >= limit)) /\
    (limit = 0 -> k = S (length ms)).
Proof.
  unfold ReadFullBuffer. intros H. apply drain_shape in H.
  destruct H as (am & at_ & k & -> & -> & _ & Hg & Hl & Hk & _).
  cbn [app] in *. split; [exact Hg|]. exists k.
  split; [exact Hl|]. split; [exact Hk|].
  intros ->. destruct Hk as [Hk|(_ & Hnz & _)]; [exact Hk | contradiction].
Qed.

(** ** The path buffer of [StartTrace] *)












(** X15.  [StartTrace] on inputs that pass both checks: once the
    configuration, the file size (when not zero) and the location, sent in
    this order, have each been answered OK without an error, the result is
    that of switching the trace on; a location call that is not answered
    so ends [StartTrace] with its answer, and the trace is not switched
    on. *)
Theorem StartTrace_sequence p filePath maxFileSize w w1 w2 :
  maxFileSize <= MAX_TRACE_FILE_SIZE_ACCEPTED ->
  len filePath <= MAX_LENGHT_STRING_BUFFER ->
  SetParameter p PCAN_TRACE_CONFIGURE
    (if maxFileSize >? 0
     then Z.lor (Z.lor (Z.lor TRACE_FILE_DATE TRACE_FILE_TIME)
                       TRACE_FILE_OVERWRITE) TRACE_FILE_SEGMENTED
     else Z.lor (Z.lor (Z.lor TRACE_FILE_DATE TRACE_FILE_TIME)
                       TRACE_FILE_OVERWRITE) TRACE_FILE_SINGLE) w =
    Returns (PCAN_ERROR_OK, None) w1 ->
  (if maxFileSize >? 0
   then SetValue p PCAN_TRACE_SIZE (le_bytes 4 maxFileSize) 4 w1 =
        Returns (PCAN_ERROR_OK, None) w2
   else w2 = w1) ->
  forall state err w3,
    SetValue p PCAN_TRACE_LOCATION (path_buffer filePath)
             (uint32 MAX_LENGHT_STRING_BUFFER) w2 = Returns (state, err) w3 ->
    StartTrace p filePath maxFileSize w =
    if negb (isNil err) || negb (state =? PCAN_ERROR_OK)
    then Returns (state, err) w3
    else SetParameter p PCAN_TRACE_STATUS PCAN_PARAMETER_ON w3.
Proof.
  intros Hmax Hfit Hcfg Hsize state err w3 Hloc.
  unfold StartTrace.
  replace (maxFileSize >? MAX_TRACE_FILE_SIZE_ACCEPTED) with false
    by (symmetry; rewrite Z.gtb_ltb; apply Z.ltb_ge; exact Hmax).
  replace (len filePath >? MAX_LENGHT_STRING_BUFFER) with false
    by (symmetry; rewrite Z.gtb_ltb; apply Z.ltb_ge; exact Hfit).
  rewrite (bind_step _ _ _ _ _ Hcfg). cbn [isNil negb orb].
  rewrite Z.eqb_refl. cbn [negb].
  assert (Hrest :
            (' (state0, err0) <-
               SetValue p PCAN_TRACE_LOCATION (path_buffer filePath)
                        (uint32 MAX_LENGHT_STRING_BUFFER) ;;
             if negb (isNil err0) || negb (state0 =? PCAN_ERROR_OK)
             then ret (state0, err0)
             else SetParameter p PCAN_TRACE_STATUS PCAN_PARAMETER_ON) w2 =
            (if negb (isNil err) || negb (state =? PCAN_ERROR_OK)
             then Returns (state, err) w3
             else SetParameter p PCAN_TRACE_STATUS PCAN_PARAMETER_ON w3)).
  { rewrite (bind_step _ _ _ _ _ Hloc).
    destruct (negb (isNil err) || negb (state =? PCAN_ERROR_OK)); reflexivity. }
  destruct (maxFileSize >? 0).
  - unfold bind at 1. unfold bind at 1. rewrite Hsize. cbn [isNil negb orb].
    rewrite Z.eqb_refl. cbn [negb]. unfold ret at 1. exact Hrest.
  - subst w2. unfold bind at 1. unfold ret at 1. exact Hrest.
Qed.

(** ** Parameter values *)

Lemma le_bytes_length n : forall v, length (le_bytes n v) = n.
Proof. induction n as [|n IH]; intros v; cbn; [reflexivity | rewrite IH; reflexivity]. Qed.

Lemma le_value_le_bytes n : forall v,
  le_value (le_bytes n v) = v mod 256 ^ Z.of_nat n.
Proof.
  induction n as [|n IH]; intros v.
  - cbn. rewrite Z.mod_1_r. reflexivity.
  - cbn [le_bytes le_value]. rewrite IH.
    rewrite Nat2Z.inj_succ, Z.pow_succ_r by lia.
    rewrite Z.rem_mul_r by lia. reflexivity.
Qed.

(** X16.  A parameter value goes to the driver and comes back unchanged:
    [SetParameter] sends the value as its little-endian bytes, and when
    the driver fills the buffer of [GetParameter] with those bytes,
    [GetParameter] returns the value (any value that fits the size of the
    type), together with the driver's status and error. *)
Theorem parameter_round_trip p param val w pr r errno d :
  0 <= val < 256 ^ Z.of_nat sizeof_TPCANParameterValue ->
  pHandleGetValue (glob w) = Some pr ->
  CAN_GetValue (Handle p) param (uint32 (Z.of_nat sizeof_TPCANParameterValue)) (drv w) =
    ((r, le_bytes sizeof_TPCANParameterValue val, errno), d) ->
  (forall w0 res w1,
      SetParameter p param val w0 = Returns res w1 ->
      calls w1 = calls w0 ++
        [EvSetValue (Handle p) param (le_bytes sizeof_TPCANParameterValue val)
                    (uint32 (Z.of_nat sizeof_TPCANParameterValue))]) /\
  exists w',
    GetParameter p param w = Returns (as_TPCANStatus r, val, syscallErr errno) w'.
Proof.
  intros Hval Hp Hdrv. split.
  - intros w0 res w1 H. unfold SetParameter in H. apply SetValue_inv in H. apply H.
  - unfold GetParameter, GetValue, bind, get_globals, Call. rewrite Hp.
    unfold interact. rewrite Hdrv. unfold ret. eexists. f_equal. f_equal. f_equal.
    rewrite firstn_all2 by (rewrite le_bytes_length; lia).
    rewrite le_value_le_bytes. apply Z.mod_small. exact Hval.
Qed.

(** ** The two layouts of [Read] *)

(** X17.  [Read] of the later layout, which goes through [APIRead], and
    [Read] of pcanbasic.go are the same function: the same outcome in the
    same world, panic included. *)
Theorem Read_layouts_agree p w :
  Read_via_API p w = Read p w /\
  (pHandleRead (glob w) = None -> Read_via_API p w = Panics w) /\
  (forall st msg ts e w',
      APIRead (Handle p) w = Returns (st, msg, ts, e) w' ->
      Read p w = Returns (if st =? PCAN_ERROR_QRCVEMPTY
                          then (st, None, None, e)
                          else (st, Some msg, Some ts, e)) w').
Proof.
  split; [apply Read_via_API_eq|]. split.
  - intros Hp. rewrite Read_via_API_eq. apply Read_nil. exact Hp.
  - intros st msg ts e w' H. rewrite <- Read_via_API_eq.
    unfold Read_via_API. rewrite (bind_step _ _ _ _ _ H).
    destruct (st =? PCAN_ERROR_QRCVEMPTY); reflexivity.
Qed.

(** ** [InitializeFD] *)

(** X18.  [InitializeFD] never yields a channel: whatever the state of
    the package and whatever [LoadAPI] does, it returns the unknown-error
    status, a nil bus and the error that it is not implemented; its only
    effect is that of the [LoadAPI] it starts with. *)
Theorem InitializeFD_not_implemented channel bitRateFD w :
  exists r w',
    LoadAPI w = Returns r w' /\
    InitializeFD channel bitRateFD w =
    Returns (PCAN_ERROR_UNKNOWN, None, Some (errors_New "Not implemented")) w'.
Proof.
  destruct (LoadAPI_cases w) as (r & w' & Hrun & _).
  exists r, w'. split; [exact Hrun|].
  unfold InitializeFD. rewrite (bind_step _ _ _ _ _ Hrun). reflexivity.
Qed.

(** ** [AttachedChannels] *)

Lemma APIGetValue_inv handle param size w r w' :
  APIGetValue handle param size w = Returns r w' ->
  extends w w' [EvGetValue handle param size].
Proof.
  unfold APIGetValue, bind, get_globals, Call.
  destruct (pHandleGetValue (glob w)); [|discriminate].
  destruct (interact _ _ w) as [[[r0 buffer] errno] w1| |] eqn:Hi; try discriminate.
  apply interact_extends in Hi. unfold ret. intros H. inversion H; subst. exact Hi.
Qed.

Lemma subseq_refl_nil {A} (l : list A) : subseq [] l.
Proof. induction l; constructor; assumption. Qed.

Lemma ask_channels_shape : forall channels found w r e w',
  ask_channels channels found w = Returns (r, e) w' ->
  exists n,
    (n <= length channels)%nat /\
    glob w' = glob w /\
    calls w' = calls w ++
      map (fun ch => EvGetValue ch PCAN_CHANNEL_CONDITION
                                (uint32 (Z.of_nat sizeof_TPCANParameterValue)))
          (firstn n channels) /\
    match r with
    | Some l => n = length channels /\ e = None /\
                exists more, l = found ++ more /\ subseq more channels
    | None => (1 <= n)%nat /\
              exists w0 state buffer,
                APIGetValue (nth (n - 1) channels 0) PCAN_CHANNEL_CONDITION
                            (uint32 (Z.of_nat sizeof_TPCANParameterValue)) w0 =
                  Returns (state, e, buffer) w' /\
                (state <> PCAN_ERROR_OK \/ e <> None)
    end.
Proof.
  induction channels as [|ch rest IH]; intros found w r e w' H.
  - cbn [ask_channels] in H. unfold ret in H. inversion H; subst.
    exists 0%nat. cbn. rewrite app_nil_r. repeat split; auto.
    exists []. rewrite app_nil_r. split; [reflexivity | constructor].
  - cbn [ask_channels] in H. apply bind_Returns in H.
    destruct H as ([[state err] buffer] & w1 & Hq & H).
    pose proof (APIGetValue_inv _ _ _ _ _ _ Hq) as [Hg1 Hl1].
    destruct (negb (state =? PCAN_ERROR_OK) || negb (isNil err)) eqn:Hfail.
    + unfold ret in H. inversion H; subst.
      exists 1%nat. cbn [length firstn map].
      split; [lia|]. split; [exact Hg1|]. split; [exact Hl1|]. split; [lia|].
      exists w, state, buffer. split; [exact Hq|].
      apply orb_true_iff in Hfail. destruct Hfail as [Hs | He].
      * left. intros Heq. rewrite Heq, Z.eqb_refl in Hs. discriminate.
      * right. intros Heq. rewrite Heq in He. discriminate.
    + match type of H with
      | (if ?c then _ else _) _ = _ => destruct c
      end; apply IH in H; destruct H as (n & Hn & Hg & Hl & Hr);
        exists (S n); cbn [length firstn map];
        (split; [lia|]); (split; [congruence|]);
        (split; [rewrite Hl, Hl1, <- app_assoc; reflexivity|]);
        destruct r as [l|].
      * destruct Hr as (-> & -> & more & -> & Hsub).
        split; [reflexivity|]. split; [reflexivity|].
        exists (ch :: more). rewrite <- app_assoc. split; [reflexivity|].
        apply subseq_take. exact Hsub.
      * destruct Hr as (Hn1 & Hlast). split; [lia|].
        destruct n as [|n']; [lia|].
        replace (S (S n') - 1)%nat with (S n') by lia. cbn [nth].
        replace (S n' - 1)%nat with n' in Hlast by lia. exact Hlast.
      * destruct Hr as (-> & -> & more & -> & Hsub).
        split; [reflexivity|]. split; [reflexivity|].
        exists more. split; [reflexivity|]. apply subseq_skip. exact Hsub.
      * destruct Hr as (Hn1 & Hlast). split; [lia|].
        destruct n as [|n']; [lia|].
        replace (S (S n') - 1)%nat with (S n') by lia. cbn [nth].
        replace (S n' - 1)%nat with n' in Hlast by lia. exact Hlast.
Qed.

(** X19.  [AttachedChannels] asks the sixteen USB channels for their
    condition in their fixed order and never changes the package
    variables.  When it returns a list, all sixteen were asked, the error
    is nil and the list is a selection of the sixteen in that order; when
    it returns the nil slice it stopped at the first query that failed and
    asked no channel after it: the last channel asked answered with a
    status other than OK or with an error, and that error is the one
    returned. *)
Theorem AttachedChannels_shape w r e w' :
  AttachedChannels w = Returns (r, e) w' ->
  glob w' = glob w /\
  exists n,
    calls w' = calls w ++
      map (fun ch => EvGetValue ch PCAN_CHANNEL_CONDITION
                                (uint32 (Z.of_nat sizeof_TPCANParameterValue)))
          (firstn n posChannels) /\
    match r with
    | Some l => n = 16%nat /\ e = None /\ subseq l posChannels
    | None => (1 <= n <= 16)%nat /\
              exists w0 state buffer,
                APIGetValue (nth (n - 1) posChannels 0) PCAN_CHANNEL_CONDITION
                            (uint32 (Z.of_nat sizeof_TPCANParameterValue)) w0 =
                  Returns (state, e, buffer) w' /\
                (state <> PCAN_ERROR_OK \/ e <> None)
    end.
Proof.
  unfold AttachedChannels. intros H. apply ask_channels_shape in H.
  destruct H as (n & Hn & Hg & Hl & Hr).
  split; [exact Hg|]. exists n. split; [exact Hl|].
  destruct r as [l|].
  - destruct Hr as (-> & -> & more & -> & Hsub). auto.
  - destruct Hr as (Hn1 & Hlast).
    split; [cbn [posChannels length] in Hn; lia | exact Hlast].
Qed.

(** X20.  A query that fails ends [AttachedChannels] at whichever channel
    it happens: the channels found so far are dropped and the nil slice is
    returned with the error of that query, which is nil when the driver
    only answered with a status other than OK, so that such a failure
    reaches the caller as (nil, nil). *)
Theorem AttachedChannels_failure channel rest found w state err buffer w1 :
  APIGetValue channel PCAN_CHANNEL_CONDITION
              (uint32 (Z.of_nat sizeof_TPCANParameterValue)) w =
    Returns (state, err, buffer) w1 ->
  state <> PCAN_ERROR_OK \/ err <> None ->
  ask_channels (channel :: rest) found w = Returns (None, err) w1 /\
  (err = None -> ask_channels (channel :: rest) found w = Returns (None, None) w1).
Proof.
  intros Hq Hfail.
  assert (Hrun : ask_channels (channel :: rest) found w = Returns (None, err) w1).
  { cbn [ask_channels]. rewrite (bind_step _ _ _ _ _ Hq).
    replace (negb (state =? PCAN_ERROR_OK) || negb (isNil err)) with true; [reflexivity|].
    symmetry. apply orb_true_iff. destruct Hfail as [Hs|He].
    - left. apply negb_true_iff. apply Z.eqb_neq. exact Hs.
    - right. destruct err; [reflexivity | contradiction]. }
  split; [exact Hrun|]. intros ->. exact Hrun.
Qed.

(** ** The command-line example *)

(** X21.  [StringToChannel] knows the first six USB channels only: it
    returns a handle exactly for their six names, each the handle of that
    name, and nil for every other string, the names of the channels 7 to
    16 included. *)
Theorem StringToChannel_known channel :
  (StringToChannel channel <> None <->
   In channel ["PCAN_USBBUS1"; "PCAN_USBBUS2"; "PCAN_USBBUS3";
               "PCAN_USBBUS4"; "PCAN_USBBUS5"; "PCAN_USBBUS6"]) /\
  (forall h, StringToChannel channel = Some h ->
     In (channel, h)
        [("PCAN_USBBUS1", PCAN_USBBUS1); ("PCAN_USBBUS2", PCAN_USBBUS2);
         ("PCAN_USBBUS3", PCAN_USBBUS3); ("PCAN_USBBUS4", PCAN_USBBUS4);
         ("PCAN_USBBUS5", PCAN_USBBUS5); ("PCAN_USBBUS6", PCAN_USBBUS6)]).
Proof.
  unfold StringToChannel.
  repeat match goal with
         | |- context [String.eqb channel ?s] =>
             destruct (String.eqb_spec channel s) as [->|?]
         end;
    (split; [split; [intros Hn | intros Hin] | intros h Hh]);
    cbn [In] in *; try discriminate; try (inversion Hh; subst);
    try contradiction; auto 10; try (intuition congruence).
Qed.

(** X22.  [StringToBaud] returns a baud rate code exactly for 125000,
    250000, 500000 and 1000000, and nil for every other number. *)
Theorem StringToBaud_known baudrate :
  (StringToBaud baudrate <> None <->
   In baudrate [125000; 250000; 500000; 1000000]) /\
  (forall code, StringToBaud baudrate = Some code ->
     In (baudrate, code)
        [(125000, PCAN_BAUD_125K); (250000, PCAN_BAUD_250K);
         (500000, PCAN_BAUD_500K); (1000000, PCAN_BAUD_1M)]).
Proof.
  unfold StringToBaud.
  repeat match goal with
         | |- context [baudrate =? ?n] =>
             destruct (Z.eqb_spec baudrate n) as [->|?]
         end;
    (split; [split; [intros Hn | intros Hin] | intros code Hc]);
    cbn [In] in *; try discriminate; try (inversion Hc; subst);
    try contradiction; auto 10; try (intuition congruence).
Qed.

(** X23.  The message of the command-line example always has eight data
    bytes: the first bytes of the text as they are (its characters, not
    the numbers written in it), then zeros.  Its data length code is the
    length of the text modulo 256, so for a text of 9 to 255 bytes it is
    above 8; the flag [extended] changes nothing, and the message type
    stays 0. *)
Theorem cli_message_shape msgID msgData isExtended :
  let msg := cli_message msgID msgData isExtended in
  length (Data msg) = 8%nat /\
  (forall j, (j < 8)%nat -> (j < length msgData)%nat ->
             nth j (Data msg) 0 = nth j msgData 0) /\
  (forall j, (length msgData <= j)%nat -> nth j (Data msg) 0 = 0) /\
  DLC msg = len msgData mod 256 /\
  (8 < len msgData < 256 -> 8 < DLC msg) /\
  msg = cli_message msgID msgData (negb isExtended) /\
  MsgType msg = 0.
Proof.
  cbv zeta. unfold cli_message, cli_data. cbn [Data DLC MsgType].
  split; [|split; [|split; [|split; [|split; [|split]]]]].
  - rewrite length_app, length_firstn, repeat_length. lia.
  - intros j H8 Hj. rewrite app_nth1 by (rewrite length_firstn; lia).
    rewrite nth_firstn.
    replace (j <? 8)%nat with true by (symmetry; apply Nat.ltb_lt; exact H8).
    reflexivity.
  - intros j Hj.
    destruct (Nat.lt_ge_cases j (length (firstn 8 msgData))) as [Hlt|Hge].
    + rewrite length_firstn in Hlt. lia.
    + rewrite app_nth2 by exact Hge.
      destruct (Nat.lt_ge_cases (j - length (firstn 8 msgData))
                                (8 - length msgData)) as [H|H].
      * apply nth_repeat_lt. exact H.
      * apply nth_overflow. rewrite repeat_length. exact H.
  - reflexivity.
  - intros H. unfold byte. change (2 ^ 8) with 256. rewrite Z.mod_small; lia.
  - reflexivity.
  - reflexivity.
Qed.

End MoreProperties.

(** * The further code at work *)

(** X3, at work: the first [LoadAPI] of the package. *)
Lemma LoadAPI_success_witness :
  @None error = None /\ resolved opened_globals.
Proof.
  pose proof (@LoadAPI_success_resolves vendor stub
                (mkWorld (E := stub) idle initial_globals []) None
                (mkWorld (E := stub) idle opened_globals [EvLoadDLL "PCANBasic.dll"])
                (fun H => False_ind _ (Bool.diff_false_true H)) eq_refl eq_refl) as H.
  exact (conj (proj1 H) (proj1 (proj2 H))).
Defined.

(** X4, at work. *)
Lemma UnloadAPI_twice_witness :
  pcanAPIHandle released_globals = pcanAPIHandle opened_globals /\
  pcanAPIHandle released_globals <> None /\
  exists err2 w2,
    UnloadAPI (E := stub) (mkWorld (E := stub) idle released_globals [EvRelease]) =
      Returns err2 w2 /\
    calls w2 = calls (opened idle) ++ [EvRelease; EvRelease].
Proof.
  exact (@UnloadAPI_twice_releases_twice stub (opened idle) None
           (mkWorld (E := stub) idle released_globals [EvRelease]) eq_refl).
Defined.

(** X5, at work. *)
Lemma LoadAPI_after_UnloadAPI_witness :
  exists r w2,
    LoadAPI (E := stub) (mkWorld (E := stub) idle released_globals [EvRelease]) =
      Returns r w2 /\
    calls w2 = calls (opened idle) ++ [EvRelease; EvLoadDLL "PCANBasic.dll"] /\
    (apiLoaded (glob w2) = true ->
     r = None /\
     forall p, exists res w3, Read (C := vendor) p w2 = Returns res w3).
Proof.
  exact (@LoadAPI_after_UnloadAPI vendor stub (opened idle) None
           (mkWorld (E := stub) idle released_globals [EvRelease]) eq_refl eq_refl).
Defined.

(** X6, at work on a call that returns a frame. *)
Lemma ReadWithTimeout_nil_iff_witness :
  Some (frame 7) = None <-> 0 = 32.
Proof.
  exact (@ReadWithTimeout_nil_iff_queue_empty vendor stub 1 usb1 0
           (opened (mkScript (frames [7]) [] [] 0))
           0 (Some (frame 7)) (Some (stamp 7)) None
           (mkWorld (E := stub) idle opened_globals [EvNow; EvRead 81]) eq_refl).
Defined.

(** X7, at work: timeout 3 ms, the clock reads 0, 1 and 4 ms. *)
Lemma ReadWithTimeout_polls_witness :
  exists w2 now,
    now_ms (E := stub) w2 =
      Returns now
        (mkWorld (E := stub) idle opened_globals
           [EvNow; EvRead 81; EvNow; EvSleep 250000; EvRead 81; EvNow]) /\
    now > int64 (0 + int64 (if 3 <? 0 then INFINITE else 3)) /\
    (0 <= 3 < 2 ^ 63 -> - 2 ^ 63 <= 0 + 3 < 2 ^ 63 -> now - 0 > 3).
Proof.
  eapply (@ReadWithTimeout_polls_to_deadline vendor stub 5 usb1 3
            (opened (mkScript [] [0; 1000000; 4000000] [] 0)) 0 _ 32 None None);
    reflexivity.
Defined.

(** X8, at work on the same call. *)
Lemma ReadWithTimeout_crossings_witness :
  exists evs,
    glob (mkWorld (E := stub) idle opened_globals
            [EvNow; EvRead 81; EvNow; EvSleep 250000; EvRead 81; EvNow]) =
    glob (opened (mkScript [] [0; 1000000; 4000000] [] 0)) /\
    calls (mkWorld (E := stub) idle opened_globals
             [EvNow; EvRead 81; EvNow; EvSleep 250000; EvRead 81; EvNow]) =
    calls (opened (mkScript [] [0; 1000000; 4000000] [] 0)) ++ EvNow :: evs /\
    Forall (fun ev =>
              ev = EvRead (Handle usb1) \/
              (hasEvents (glob (opened (mkScript [] [0; 1000000; 4000000] [] 0))) = true /\
               ev = EvWait (recvEvent usb1)
                           (uint32 (if 3 <? 0 then INFINITE else 3))) \/
              (hasEvents (glob (opened (mkScript [] [0; 1000000; 4000000] [] 0))) = false /\
               (ev = EvNow \/ ev = EvSleep 250000))) evs.
Proof.
  eapply (@ReadWithTimeout_crossings vendor stub 5 usb1 3
            (opened (mkScript [] [0; 1000000; 4000000] [] 0))
            (32, None, None, None)).
  reflexivity.
Defined.

(** X9, at work: every read leaves the last-error value 5 behind. *)
Lemma ReadWithTimeout_read_error_witness :
  ReadWithTimeout (C := vendor) (E := noisy) 5 usb1 3
    (noisy_opened (mkScript [] [0; 4000000] [] 0)) =
  Returns (32, None, None, Some (Errno_text 5))
    (mkWorld (E := noisy) idle opened_globals [EvNow; EvRead 81; EvNow]).
Proof.
  eapply (@ReadWithTimeout_hands_read_error_through vendor noisy usb1 3 _ 0 _ 0%nat).
  - reflexivity.
  - apply fruitless_O.
  - reflexivity.
  - reflexivity.
  - reflexivity.
  - reflexivity.
  - lia.
Defined.

(** X10, at work: the events are on and the wait fails. *)
Lemma ReadWithTimeout_wait_ends_witness :
  (Some (Errno 6) <> None <-> 4294967295 = WAIT_FAILED) /\
  forall fuel, (0 < fuel)%nat ->
    ReadWithTimeout (C := vendor) (E := noisy) fuel usb1 3
      (mkWorld (E := noisy) (mkScript [] [0] [4294967295] 0)
               (with_events opened_globals) []) =
    Returns (32, None, None, Some (Errno 6))
      (mkWorld (E := noisy) idle (with_events opened_globals)
               [EvNow; EvRead 81; EvWait 0 3]).
Proof.
  eapply (@ReadWithTimeout_wait_ends vendor noisy usb1 3 _ 0 _ 0%nat).
  - reflexivity.
  - apply fruitless_O.
  - reflexivity.
  - reflexivity.
  - reflexivity.
  - discriminate.
Defined.

(** X11 and X12, at work: five frames queued, limit 3. *)
Lemma ReadFullBuffer_pairs_witness :
  length [frame 1; frame 2; frame 3] = length [stamp 1; stamp 2; stamp 3] /\
  (3 <> 0 -> len [frame 1; frame 2; frame 3] <= Z.max 3 1).
Proof.
  exact (@ReadFullBuffer_pairs_within_limit vendor stub 6 usb1 3
           (opened (mkScript (frames [1; 2; 3; 4; 5]) [] [] 0))
           [frame 1; frame 2; frame 3] [stamp 1; stamp 2; stamp 3] None
           (mkWorld (E := stub) (mkScript (frames [4; 5]) [] [] 0) opened_globals
                    [EvRead 81; EvRead 81; EvRead 81]) eq_refl).
Defined.

Lemma ReadFullBuffer_read_count_witness :
  opened_globals = opened_globals /\
  exists k,
    [EvRead 81; EvRead 81; EvRead 81] = [] ++ repeat (EvRead 81) k /\
    (k = S (length [frame 1; frame 2; frame 3]) \/
     (k = length [frame 1; frame 2; frame 3] /\ 3 <> 0 /\
      len [frame 1; frame 2; frame 3] >= 3)) /\
    (3 = 0 -> k = S (length [frame 1; frame 2; frame 3])).
Proof.
  exact (@ReadFullBuffer_read_count vendor stub 6 usb1 3
           (opened (mkScript (frames [1; 2; 3; 4; 5]) [] [] 0))
           [frame 1; frame 2; frame 3] [stamp 1; stamp 2; stamp 3] None
           (mkWorld (E := stub) (mkScript (frames [4; 5]) [] [] 0) opened_globals
                    [EvRead 81; EvRead 81; EvRead 81]) eq_refl).
Defined.



(** X15, at work: a short path, no size. *)
Lemma StartTrace_sequence_witness :
  StartTrace (C := vendor) (E := stub) usb1 [65; 66] 0 (opened idle) =
  SetParameter (C := vendor) (E := stub) usb1 20 1
    (mkWorld (E := stub) idle opened_globals
       [EvSetValue 81 22 [134; 0; 0; 0] 4;
        EvSetValue 81 19 (path_buffer (C := vendor) [65; 66]) 256]).
Proof.
  refine (@StartTrace_sequence vendor stub usb1 [65; 66] 0 (opened idle)
            (mkWorld (E := stub) idle opened_globals [EvSetValue 81 22 [134; 0; 0; 0] 4])
            (mkWorld (E := stub) idle opened_globals [EvSetValue 81 22 [134; 0; 0; 0] 4])
            _ _ eq_refl eq_refl 0 None _ eq_refl).
  - discriminate.
  - discriminate.
Defined.

(** X16, at work: the value 1. *)
Lemma parameter_round_trip_witness :
  (forall w0 res w1,
      SetParameter (C := vendor) (E := noisy) usb1 13 1 w0 = Returns res w1 ->
      calls w1 = calls w0 ++ [EvSetValue 81 13 [1; 0; 0; 0] 4]) /\
  exists w',
    GetParameter (C := vendor) (E := noisy) usb1 13 (noisy_opened idle) =
    Returns (0, 1, None) w'.
Proof.
  refine (@parameter_round_trip vendor noisy usb1 13 1 (noisy_opened idle)
            (mkProc "CAN_GetValue") 0 (Some 0) idle _ eq_refl eq_refl).
  cbn. lia.
Defined.

(** X19, at work: twelve of the sixteen channels answer with a condition
    that counts. *)
Lemma AttachedChannels_witness :
  opened_globals = opened_globals /\
  exists n,
    asked_all =
      [] ++ map (fun ch => EvGetValue ch 13 4)
                (firstn n (posChannels (K := vendor_channels))) /\
    (n = 16%nat /\ @None error = None /\
     subseq [81; 82; 83; 85; 86; 87; 1289; 1290; 1291; 1293; 1294; 1295]
            (posChannels (K := vendor_channels))).
Proof.
  exact (@AttachedChannels_shape vendor noisy vendor_channels (noisy_opened idle)
           (Some [81; 82; 83; 85; 86; 87; 1289; 1290; 1291; 1293; 1294; 1295]) None
           (mkWorld (E := noisy) idle opened_globals asked_all) eq_refl).
Defined.

(** X20, at work: the driver answers every query with status 5 and no
    error. *)
Lemma AttachedChannels_failure_witness :
  AttachedChannels (C := vendor) (E := noisy) (K := vendor_channels)
    (noisy_opened (mkScript [] [] [] 5)) =
  Returns (None, None)
    (mkWorld (E := noisy) (mkScript [] [] [] 5) opened_globals [EvGetValue 81 13 4]).
Proof.
  refine (proj1 (@AttachedChannels_failure vendor noisy vendor_channels 81
                   [82; 83; 84; 85; 86; 87; 88; 1289; 1290; 1291; 1292; 1293;
                    1294; 1295; 1296] []
                   (noisy_opened (mkScript [] [] [] 5)) 5 None [1; 0; 0; 0] _
                   eq_refl _)).
  left. discriminate.
Defined.
